(** * CircularBuffer: a fixed-capacity ring buffer (CircularBuffer.tpp)

    Shallow embedding of the member functions of
    [CircularBuffer<T,S,IT>] and the properties of its index arithmetic.

    Modelling conventions.
    - The storage [T buffer[S]] is a [list T]; the pointers [head] and [tail]
      are kept as their offsets [head - buffer] and [tail - buffer] in [Z]
      (the code lets [head] reach [buffer + capacity] and [tail] reach
      [buffer - 1] for an instant before it wraps them).
    - [count] has the unsigned type [IT]; [count++] and [count--] are
      written with their wrap-around modulo [IT_max + 1].
    - A member function is a function from the buffer state to its result
      and the state it leaves behind.
    - [*p] for an offset outside the storage is undefined in C++: a load
      there yields [None]; a store there leaves the list as it is. The
      theorems about stores are stated where the pointers are in range. *)

From Stdlib Require Import ZArith Lia List Bool.
From stdpp Require Import base numbers list.

Local Open Scope Z_scope.

(** ** Memory accesses through a pointer offset *)

(** [*(base + p)] as an rvalue. *)
Definition load {A : Type} (mem : list A) (p : Z) : option A :=
  if 0 <=? p then mem !! Z.to_nat p else None.

(** [*(base + p) = x]. *)
Definition store {A : Type} (mem : list A) (p : Z) (x : A) : list A :=
  if 0 <=? p then <[Z.to_nat p := x]> mem else mem.

(** ** The buffer state *)

Record CircularBuffer (T : Type) : Type := MkCircularBuffer {
  buffer : list T;   (* T buffer[S] *)
  head : Z;          (* T *head, as head - buffer *)
  tail : Z;          (* T *tail, as tail - buffer *)
  count : Z          (* IT count *)
}.

Arguments MkCircularBuffer {T} _ _ _ _.
Arguments buffer {T} _.
Arguments head {T} _.
Arguments tail {T} _.
Arguments count {T} _.

(** ** Results of a loop run with fuel *)

Inductive outcome (A : Type) : Type :=
| Done (a : A)      (* the loop ran to its end *)
| Undefined         (* an access outside the source or destination array *)
| OutOfFuel.

Arguments Done {A} _.
Arguments Undefined {A}.
Arguments OutOfFuel {A}.

(** ** The buffer placed in a memory

    The state of a buffer whose storage is a region of a memory of cells
    [V], with [head] and [tail] as addresses (see the section on one
    address space below). *)

Record Placed (V : Type) : Type := MkPlaced {
  cells : list V;    (* the memory *)
  buffer_at : Z;     (* address of buffer[0] *)
  head_at : Z;       (* T *head *)
  tail_at : Z;       (* T *tail *)
  count_of : Z       (* IT count *)
}.

Arguments MkPlaced {V} _ _ _ _ _.
Arguments cells {V} _.
Arguments buffer_at {V} _.
Arguments head_at {V} _.
Arguments tail_at {V} _.
Arguments count_of {V} _.

Section Methods.

(** Element type, capacity ([static constexpr IT capacity], the template
    argument [S]) and the largest value of the index type [IT]. *)
Context {T : Type}.
Variable capacity : Z.
Variable IT_max : Z.

Local Abbreviation CB := (CircularBuffer T).

(** Conversion of an integer result to the unsigned type [IT]. *)
Definition wrapIT (x : Z) : Z := x mod (IT_max + 1).

(** [CircularBuffer()]: [head(buffer), tail(buffer), count(0)]. The
    storage is not initialised by the constructor: [mem] is whatever the
    array holds. *)
Definition CircularBuffer_ctor (mem : list T) : CB :=
  MkCircularBuffer mem 0 0 0.

(** [bool unshift(T value)] *)
Definition unshift (value : T) (b : CB) : bool * CB :=
  let head1 := if head b =? 0 then 0 + capacity else head b in
  let head2 := head1 - 1 in
  let buf := store (buffer b) head2 value in
  if count b =? capacity then
    let tail1 := if tail b =? 0 then 0 + capacity - 1 else tail b - 1 in
    (false, MkCircularBuffer buf head2 tail1 (count b))
  else
    let tail1 := if count b =? 0 then head2 else tail b in
    (true, MkCircularBuffer buf head2 tail1 (wrapIT (count b + 1))).

(** [bool push(T value)] *)
Definition push (value : T) (b : CB) : bool * CB :=
  let tail1 := tail b + 1 in
  let tail2 := if tail1 =? 0 + capacity then 0 else tail1 in
  let buf := store (buffer b) tail2 value in
  if count b =? capacity then
    let head1 := head b + 1 in
    let head2 := if head1 =? 0 + capacity then 0 else head1 in
    (false, MkCircularBuffer buf head2 tail2 (count b))
  else
    let head1 := if count b =? 0 then tail2 else head b in
    (true, MkCircularBuffer buf head1 tail2 (wrapIT (count b + 1))).

(** [T&& shift()]: the result is the value found behind the returned
    reference. *)
Definition shift (b : CB) : option T * CB :=
  if count b =? 0 then (load (buffer b) (head b), b)
  else
    let result := load (buffer b) (head b) in
    let head1 := head b + 1 in
    let head2 := if head1 >=? 0 + capacity then 0 else head1 in
    (result, MkCircularBuffer (buffer b) head2 (tail b) (wrapIT (count b - 1))).

(** [void shiftNoReturn()] *)
Definition shiftNoReturn (b : CB) : unit * CB :=
  if count b =? 0 then (tt, b)
  else
    let head1 := head b + 1 in
    let head2 := if head1 >=? 0 + capacity then 0 else head1 in
    (tt, MkCircularBuffer (buffer b) head2 (tail b) (wrapIT (count b - 1))).

(** [T&& pop()] *)
Definition pop (b : CB) : option T * CB :=
  if count b =? 0 then (load (buffer b) (tail b), b)
  else
    let result := load (buffer b) (tail b) in
    let tail1 := tail b - 1 in
    let tail2 := if tail1 <? 0 then 0 + capacity - 1 else tail1 in
    (result, MkCircularBuffer (buffer b) (head b) tail2 (wrapIT (count b - 1))).

(** [void popNoReturn()] *)
Definition popNoReturn (b : CB) : unit * CB :=
  if count b =? 0 then (tt, b)
  else
    let tail1 := tail b - 1 in
    let tail2 := if tail1 <? 0 then 0 + capacity - 1 else tail1 in
    (tt, MkCircularBuffer (buffer b) (head b) tail2 (wrapIT (count b - 1))).

(** [T& operator[](IT index)]: the reference returned, as the offset of
    the slot it designates. [head - buffer + index] is computed in
    [ptrdiff_t] or wider and is taken exact; [%] is C++'s truncating
    remainder. *)
Definition subscript (index : Z) (b : CB) : Z * CB :=
  if index >=? count b then (tail b, b)
  else (Z.rem (head b - 0 + index) capacity, b).

(** [const T& operator[](IT index) const] *)
Definition subscript_const (index : Z) (b : CB) : Z * CB :=
  if index >=? count b then (tail b, b)
  else (Z.rem (head b - 0 + index) capacity, b).

(** [IT size() const] *)
Definition size (b : CB) : Z * CB := (count b, b).

(** [IT available() const] *)
Definition available (b : CB) : Z * CB := (wrapIT (capacity - count b), b).

(** [bool isEmpty() const] *)
Definition isEmpty (b : CB) : bool * CB := (count b =? 0, b).

(** [bool isFull() const] *)
Definition isFull (b : CB) : bool * CB := (count b =? capacity, b).

(** [void clear()] *)
Definition clear (b : CB) : unit * CB :=
  (tt, MkCircularBuffer (buffer b) 0 0 0).

(** *** Bulk export *)

(** One [for] loop of [copyToArray],
    [for (current = ...; in_range(current) && dest < finish; current++, dest++)]
    with the body [*dest = convert( *current )]. [dest] is the destination
    array and [d] the offset of the moving destination pointer in it. The
    loop needs at most one unit of [fuel] per source slot left (see
    [copy_loop_fuel] and [copyToArray_fuel]). *)
Fixpoint copy_loop {R : Type} (convert : T -> R) (mem : list T)
    (in_range : Z -> bool) (finish : Z)
    (fuel : nat) (current d : Z) (dest : list R) : outcome (Z * list R) :=
  if in_range current && (d <? finish) then
    match fuel with
    | O => OutOfFuel
    | S fuel' =>
        match load mem current, load dest d with
        | Some x, Some _ =>
            copy_loop convert mem in_range finish fuel'
                      (current + 1) (d + 1) (store dest d (convert x))
        | _, _ => Undefined
        end
    end
  else Done (d, dest).

(** [void copyToArray(T* dest) const]. The destination is an array of the
    caller's, disjoint from the buffer's storage; the result is that array
    after the call. *)
Definition copyToArray (dest : list T) (b : CB) : outcome (list T) * CB :=
  let finish := 0 + count b in
  match copy_loop (fun x => x) (buffer b)
                  (fun current => current <? 0 + capacity)
                  finish (Z.to_nat (capacity - head b)) (head b) 0 dest with
  | Done (d, dest1) =>
      match copy_loop (fun x => x) (buffer b)
                      (fun current => current <=? tail b)
                      finish (Z.to_nat (tail b + 1)) 0 d dest1 with
      | Done (_, dest2) => (Done dest2, b)
      | Undefined => (Undefined, b)
      | OutOfFuel => (OutOfFuel, b)
      end
  | Undefined => (Undefined, b)
  | OutOfFuel => (OutOfFuel, b)
  end.

(** [void copyToArray(R* dest, R (&convertFn)(const T&)) const] *)
Definition copyToArray_convert {R : Type} (dest : list R) (convertFn : T -> R)
    (b : CB) : outcome (list R) * CB :=
  let finish := 0 + count b in
  match copy_loop convertFn (buffer b)
                  (fun current => current <? 0 + capacity)
                  finish (Z.to_nat (capacity - head b)) (head b) 0 dest with
  | Done (d, dest1) =>
      match copy_loop convertFn (buffer b)
                      (fun current => current <=? tail b)
                      finish (Z.to_nat (tail b + 1)) 0 d dest1 with
      | Done (_, dest2) => (Done dest2, b)
      | Undefined => (Undefined, b)
      | OutOfFuel => (OutOfFuel, b)
      end
  | Undefined => (Undefined, b)
  | OutOfFuel => (OutOfFuel, b)
  end.

(** ** Sequences of calls *)

Inductive call : Type :=
| Unshift (value : T)
| Push (value : T)
| Shift
| ShiftNoReturn
| Pop
| PopNoReturn
| Clear.

(** The state a call leaves behind. *)
Definition exec (c : call) (b : CB) : CB :=
  match c with
  | Unshift v => snd (unshift v b)
  | Push v => snd (push v b)
  | Shift => snd (shift b)
  | ShiftNoReturn => snd (shiftNoReturn b)
  | Pop => snd (pop b)
  | PopNoReturn => snd (popNoReturn b)
  | Clear => snd (clear b)
  end.

Definition run (cs : list call) (b : CB) : CB :=
  fold_left (fun st c => exec c st) cs b.

(** States reachable from a freshly constructed buffer whose storage has
    [capacity] slots. *)
Inductive reachable : CB -> Prop :=
| reach_ctor mem :
    length mem = Z.to_nat capacity -> reachable (CircularBuffer_ctor mem)
| reach_call c b : reachable b -> reachable (exec c b).

(** [push] applied to each value in turn, with the results collected. *)
Fixpoint push_all (vs : list T) (b : CB) : list bool * CB :=
  match vs with
  | [] => ([], b)
  | v :: vs' =>
      let (r, b1) := push v b in
      let (rs, b2) := push_all vs' b1 in
      (r :: rs, b2)
  end.

(** ** Well-formed states *)

(** The pointers designate storage slots and [count] is within capacity. *)
Definition valid (b : CB) : Prop :=
  length (buffer b) = Z.to_nat capacity /\
  0 <= head b < capacity /\
  0 <= tail b < capacity /\
  0 <= count b <= capacity.

(** While the buffer has elements, [tail] is [count - 1] slots after
    [head]. *)
Definition chained (b : CB) : Prop :=
  count b = 0 \/ tail b = (head b + count b - 1) mod capacity.

(** [tail] is [count - 1] slots after [head], or the buffer is empty with
    both pointers on one slot. *)
Definition linked (b : CB) : Prop :=
  (count b = 0 /\ head b = tail b) \/
  tail b = (head b + count b - 1) mod capacity.

(** The value at logical index [i]. *)
Definition logical (b : CB) (i : Z) : option T :=
  load (buffer b) ((head b + i) mod capacity).

(** [b] holds exactly the values [l], oldest first. *)
Definition holds (b : CB) (l : list T) : Prop :=
  count b = Z.of_nat (length l) /\
  forall i x, l !! i = Some x -> logical b (Z.of_nat i) = Some x.

(** ** Draining, and calls read on the sequence of values held *)

(** [shift] called [n] times, with the values returned. *)
Fixpoint shift_all (n : nat) (b : CB) : list (option T) * CB :=
  match n with
  | O => ([], b)
  | S n' =>
      let (x, b1) := shift b in
      let (xs, b2) := shift_all n' b1 in
      (x :: xs, b2)
  end.

(** [pop] called [n] times, with the values returned. *)
Fixpoint pop_all (n : nat) (b : CB) : list (option T) * CB :=
  match n with
  | O => ([], b)
  | S n' =>
      let (x, b1) := pop b in
      let (xs, b2) := pop_all n' b1 in
      (x :: xs, b2)
  end.

(** [b] is well formed and holds exactly the values [l], oldest first. *)
Definition represents (b : CB) (l : list T) : Prop :=
  valid b /\ chained b /\ holds b l.

(** A call read on the sequence of values held, oldest first: a
    double-ended queue of at most [capacity] values in which an insertion
    into a full queue drops the value at the other end. This is the
    reference the calls are compared with in [run_refines_deque]. *)
Definition deque_exec (c : call) (l : list T) : list T :=
  match c with
  | Unshift v =>
      if Z.of_nat (length l) =? capacity
      then v :: take (length l - 1) l else v :: l
  | Push v =>
      if Z.of_nat (length l) =? capacity
      then drop 1 l ++ [v] else l ++ [v]
  | Shift | ShiftNoReturn => drop 1 l
  | Pop | PopNoReturn => take (length l - 1) l
  | Clear => []
  end.

Definition deque_run (cs : list call) (l : list T) : list T :=
  fold_left (fun st c => deque_exec c st) cs l.

(** ** The buffer and a destination in one address space

    To say where the writes of [copyToArray] land, the storage and the
    destination are here two regions of one memory of cells [V], addressed
    from 0, and [head], [tail] and the destination pointer are addresses.
    A cell is read as a [T] through [as_T]; [of_T] is the cell a [T] is
    stored as. An access outside the array a pointer was derived from (the
    storage for [current], the destination for [dest]) is undefined. *)

Section InMemory.

Context {V : Type}.
Variable as_T : V -> option T.
Variable of_T : T -> V.

(** [*p] for a pointer into the array of [len] cells at [lo]. *)
Definition load_within (mem : list V) (lo len p : Z) : option V :=
  if (lo <=? p) && (p <? lo + len) then load mem p else None.

(** One [for] loop of [copyToArray] on the memory: [current] walks the
    storage at [buf], [dest] the destination array of [dst_len] cells at
    [dst], and the body stores [put] of the value read. *)
Fixpoint copy_loop_at (put : T -> V) (buf dst dst_len : Z)
    (in_range : Z -> bool) (finish : Z)
    (fuel : nat) (current dest : Z) (mem : list V) : outcome (Z * list V) :=
  if in_range current && (dest <? finish) then
    match fuel with
    | O => OutOfFuel
    | S fuel' =>
        match load_within mem buf capacity current,
              load_within mem dst dst_len dest with
        | Some c, Some _ =>
            match as_T c with
            | Some x =>
                copy_loop_at put buf dst dst_len in_range finish fuel'
                             (current + 1) (dest + 1) (store mem dest (put x))
            | None => Undefined
            end
        | _, _ => Undefined
        end
    end
  else Done (dest, mem).

(** [void copyToArray(T* dest) const], with [dest] the address [dst] of
    an array of [dst_len] cells. *)
Definition copyToArray_at (dst dst_len : Z) (p : Placed V)
  : outcome (Placed V) :=
  let finish := dst + count_of p in
  match copy_loop_at of_T (buffer_at p) dst dst_len
                     (fun current => current <? buffer_at p + capacity)
                     finish (Z.to_nat (buffer_at p + capacity - head_at p))
                     (head_at p) dst (cells p) with
  | Done (d, mem1) =>
      match copy_loop_at of_T (buffer_at p) dst dst_len
                         (fun current => current <=? tail_at p)
                         finish (Z.to_nat (tail_at p + 1 - buffer_at p))
                         (buffer_at p) d mem1 with
      | Done (_, mem2) =>
          Done (MkPlaced mem2 (buffer_at p) (head_at p) (tail_at p)
                         (count_of p))
      | Undefined => Undefined
      | OutOfFuel => OutOfFuel
      end
  | Undefined => Undefined
  | OutOfFuel => OutOfFuel
  end.

(** [void copyToArray(R* dest, R (&convertFn)(const T&)) const]; [of_R] is
    the cell an [R] is stored as. *)
Definition copyToArray_convert_at {R : Type} (of_R : R -> V)
    (dst dst_len : Z) (convertFn : T -> R) (p : Placed V)
  : outcome (Placed V) :=
  let finish := dst + count_of p in
  match copy_loop_at (fun x => of_R (convertFn x)) (buffer_at p) dst dst_len
                     (fun current => current <? buffer_at p + capacity)
                     finish (Z.to_nat (buffer_at p + capacity - head_at p))
                     (head_at p) dst (cells p) with
  | Done (d, mem1) =>
      match copy_loop_at (fun x => of_R (convertFn x)) (buffer_at p)
                         dst dst_len
                         (fun current => current <=? tail_at p)
                         finish (Z.to_nat (tail_at p + 1 - buffer_at p))
                         (buffer_at p) d mem1 with
      | Done (_, mem2) =>
          Done (MkPlaced mem2 (buffer_at p) (head_at p) (tail_at p)
                         (count_of p))
      | Undefined => Undefined
      | OutOfFuel => OutOfFuel
      end
  | Undefined => Undefined
  | OutOfFuel => OutOfFuel
  end.

(** The storage lies in the memory and holds values of type [T]; the
    pointers designate storage slots and [count] is within capacity. *)
Definition placed_ok (p : Placed V) : Prop :=
  0 <= buffer_at p /\
  buffer_at p + capacity <= Z.of_nat (length (cells p)) /\
  buffer_at p <= head_at p < buffer_at p + capacity /\
  buffer_at p <= tail_at p < buffer_at p + capacity /\
  0 <= count_of p <= capacity /\
  forall a, buffer_at p <= a < buffer_at p + capacity ->
    exists c x, load (cells p) a = Some c /\ as_T c = Some x.

(** [p'] has the pointers, the count and every storage slot of [p]. *)
Definition same_buffer (p p' : Placed V) : Prop :=
  buffer_at p' = buffer_at p /\
  head_at p' = head_at p /\
  tail_at p' = tail_at p /\
  count_of p' = count_of p /\
  forall i, 0 <= i < capacity ->
    load (cells p') (buffer_at p + i) = load (cells p) (buffer_at p + i).

End InMemory.

(** ** Assumptions on the template arguments

    The capacity is a positive integer and the index type can represent
    every value up to and including it. *)
Hypothesis capacity_pos : 0 < capacity.
Hypothesis capacity_fits : capacity <= IT_max.

(** ** Arithmetic of wrapped offsets *)

Lemma wrapIT_small x : 0 <= x <= IT_max -> wrapIT x = x.
Proof. intros Hx. unfold wrapIT. apply Z.mod_small. lia. Qed.

Lemma mod_wrap x :
  - capacity <= x < 2 * capacity ->
  x mod capacity =
    if x <? 0 then x + capacity
    else if x <? capacity then x else x - capacity.
Proof.
  intros Hx. symmetry.
  destruct (Z.ltb_spec x 0); [|destruct (Z.ltb_spec x capacity)].
  - apply Z.mod_unique_pos with (q := -1); lia.
  - apply Z.mod_unique_pos with (q := 0); lia.
  - apply Z.mod_unique_pos with (q := 1); lia.
Qed.

Lemma rem_is_mod x : 0 <= x -> Z.rem x capacity = x mod capacity.
Proof. intros Hx. apply Z.rem_mod_nonneg; lia. Qed.

(** Splits every comparison in the goal and rewrites the remainders of
    offsets that are less than one lap away from the storage. *)
Ltac split_tests :=
  repeat match goal with
    | |- context [?x =? ?y] => destruct (Z.eqb_spec x y)
    | |- context [?x <? ?y] => destruct (Z.ltb_spec x y)
    | |- context [?x <=? ?y] => destruct (Z.leb_spec x y)
    | |- context [?x >=? ?y] => rewrite (Z.geb_leb x y)
    | H : context [?x <? ?y] |- _ => destruct (Z.ltb_spec x y)
    end.

Ltac unwrap :=
  repeat match goal with
    | |- context [wrapIT ?x] => rewrite (wrapIT_small x) by lia
    | H : context [wrapIT ?x] |- _ => rewrite (wrapIT_small x) in H by lia
    | |- context [?x mod capacity] => rewrite (mod_wrap x) by lia
    | H : context [?x mod capacity] |- _ => rewrite (mod_wrap x) in H by lia
    end.

(** ** Loads and stores *)

Lemma length_store {A} (mem : list A) p x : length (store mem p x) = length mem.
Proof. unfold store. destruct (0 <=? p); [apply length_insert | reflexivity]. Qed.

Lemma load_store_eq {A} (mem : list A) p x :
  0 <= p < Z.of_nat (length mem) -> load (store mem p x) p = Some x.
Proof.
  intros Hp. unfold load, store.
  destruct (Z.leb_spec 0 p); [|lia].
  apply list_lookup_insert_eq. lia.
Qed.

Lemma load_store_ne {A} (mem : list A) p q x :
  p <> q -> load (store mem p x) q = load mem q.
Proof.
  intros Hpq. unfold load, store.
  destruct (Z.leb_spec 0 q); [|reflexivity].
  destruct (Z.leb_spec 0 p); [|reflexivity].
  apply list_lookup_insert_ne. lia.
Qed.

Lemma load_in_range {A} (mem : list A) p :
  0 <= p < Z.of_nat (length mem) -> is_Some (load mem p).
Proof.
  intros Hp. unfold load. destruct (Z.leb_spec 0 p); [|lia].
  apply lookup_lt_is_Some. lia.
Qed.

Lemma load_Some_range {A} (mem : list A) p x :
  load mem p = Some x -> 0 <= p < Z.of_nat (length mem).
Proof.
  unfold load. destruct (Z.leb_spec 0 p); [|discriminate].
  intros Hl. apply lookup_lt_Some in Hl. lia.
Qed.

(** ** The representation invariant *)

Lemma valid_ctor mem :
  length mem = Z.to_nat capacity -> valid (CircularBuffer_ctor mem).
Proof. intros Hm. unfold valid; simpl. lia. Qed.

Lemma linked_ctor mem : linked (CircularBuffer_ctor mem).
Proof. left. split; reflexivity. Qed.

Lemma valid_exec c b : valid b -> valid (exec c b).
Proof.
  intros (Hlen & Hh & Ht & Hc).
  destruct c; unfold exec, unshift, push, shift, shiftNoReturn, pop,
    popNoReturn, clear, valid; split_tests; simpl;
    rewrite ?length_store; unwrap; lia.
Qed.

Lemma linked_exec c b : valid b -> linked b -> linked (exec c b).
Proof.
  intros (Hlen & Hh & Ht & Hc) Hl. unfold linked in *.
  destruct Hl as [[Hc0 Hht] | Hl]; unwrap;
    destruct c; unfold exec, unshift, push, shift, shiftNoReturn, pop,
      popNoReturn, clear; split_tests; simpl; unwrap; split_tests; lia.
Qed.

Lemma reachable_valid b : reachable b -> valid b.
Proof.
  induction 1 as [mem Hm | c b Hr IH];
    [apply valid_ctor | apply valid_exec]; assumption.
Qed.

Lemma reachable_linked b : reachable b -> linked b.
Proof.
  induction 1 as [mem Hm | c b Hr IH].
  - apply linked_ctor.
  - apply linked_exec; [apply reachable_valid|]; assumption.
Qed.

Lemma reachable_run cs b : reachable b -> reachable (run cs b).
Proof.
  revert b. induction cs as [|c cs IH]; intros b Hb; simpl.
  - assumption.
  - apply IH. apply reach_call. assumption.
Qed.

(** ** Logical contents across [push] *)

Lemma linked_chained b : linked b -> chained b.
Proof. intros [[H0 _] | Hl]; [left | right]; assumption. Qed.

Lemma chained_push v b : valid b -> chained b -> chained (snd (push v b)).
Proof.
  intros (Hlen & Hh & Ht & Hc) Hl. unfold chained in *.
  destruct Hl as [H0 | Hl]; unwrap;
    unfold push; split_tests; simpl; unwrap; split_tests; lia.
Qed.

Lemma push_holds_room v b l :
  valid b -> chained b -> holds b l -> count b <> capacity ->
  fst (push v b) = true /\ holds (snd (push v b)) (l ++ [v]).
Proof.
  intros (Hlen & Hh & Ht & Hc) Hl [Hcnt Hel] Hne.
  unfold push. rewrite (proj2 (Z.eqb_neq _ _) Hne). simpl.
  split; [reflexivity|]. unfold holds, logical. simpl.
  rewrite wrapIT_small by lia. split.
  { rewrite length_app. simpl. lia. }
  intros i x Hix.
  destruct (Nat.lt_ge_cases i (length l)) as [Hi | Hi].
  - rewrite lookup_app_l in Hix by assumption.
    specialize (Hel i x Hix). unfold logical in Hel.
    destruct (Z.eqb_spec (count b) 0); [lia|].
    rewrite load_store_ne; [assumption|].
    destruct Hl as [? | Hl]; [lia|]. rewrite Hl.
    unwrap. split_tests; lia.
  - rewrite lookup_app_r in Hix by assumption.
    destruct (i - length l)%nat as [|k] eqn:Hk; [|destruct k; discriminate].
    simpl in Hix. injection Hix as <-.
    assert (Hi' : Z.of_nat i = count b) by lia. rewrite Hi'.
    assert (Hslot :
      ((if count b =? 0
        then if tail b + 1 =? 0 + capacity then 0 else tail b + 1
        else head b) + count b) mod capacity
      = (if tail b + 1 =? 0 + capacity then 0 else tail b + 1)).
    { destruct Hl as [? | Hl]; [|rewrite Hl];
        split_tests; unwrap; split_tests; lia. }
    rewrite Hslot. apply load_store_eq. rewrite Hlen. split_tests; lia.
Qed.

Lemma push_holds_full v b l :
  valid b -> chained b -> holds b l -> count b = capacity ->
  fst (push v b) = false /\ holds (snd (push v b)) (drop 1 l ++ [v]).
Proof.
  intros (Hlen & Hh & Ht & Hc) Hl [Hcnt Hel] Hfull.
  unfold push. rewrite (proj2 (Z.eqb_eq _ _) Hfull). simpl.
  split; [reflexivity|]. unfold holds, logical. simpl.
  destruct Hl as [? | Hl]; [lia|].
  assert (Htail : (if tail b + 1 =? 0 + capacity then 0 else tail b + 1)
                  = head b)
    by (rewrite Hl; unwrap; split_tests; lia).
  rewrite Htail. split.
  { rewrite length_app, length_drop. simpl. lia. }
  intros i x Hix.
  assert (Hlen1 : length (drop 1 l) = (length l - 1)%nat)
    by apply length_drop.
  destruct (Nat.lt_ge_cases i (length l - 1)) as [Hi | Hi].
  - rewrite lookup_app_l in Hix by lia.
    rewrite lookup_drop in Hix.
    specialize (Hel _ x Hix). unfold logical in Hel.
    rewrite load_store_ne by (split_tests; unwrap; split_tests; lia).
    rewrite <- Hel. f_equal.
    split_tests; unwrap; split_tests; lia.
  - rewrite lookup_app_r in Hix by lia.
    rewrite Hlen1 in Hix.
    destruct (i - (length l - 1))%nat as [|k] eqn:Hk;
      [|destruct k; discriminate].
    simpl in Hix. injection Hix as <-.
    assert (Hslot :
      ((if head b + 1 =? 0 + capacity then 0 else head b + 1)
       + Z.of_nat i) mod capacity = head b)
      by (split_tests; unwrap; split_tests; lia).
    rewrite Hslot. apply load_store_eq. lia.
Qed.

Lemma push_all_app vs ws b :
  push_all (vs ++ ws) b =
    (fst (push_all vs b) ++ fst (push_all ws (snd (push_all vs b))),
     snd (push_all ws (snd (push_all vs b)))).
Proof.
  revert b. induction vs as [|v vs IH]; intros b; simpl.
  - destruct (push_all ws b); reflexivity.
  - destruct (push v b) as [r b1]. rewrite IH.
    destruct (push_all vs b1) as [rs b2]. simpl. reflexivity.
Qed.

Lemma push_all_room vs : forall b l,
  valid b -> chained b -> holds b l ->
  count b + Z.of_nat (length vs) <= capacity ->
  fst (push_all vs b) = replicate (length vs) true /\
  valid (snd (push_all vs b)) /\ chained (snd (push_all vs b)) /\
  holds (snd (push_all vs b)) (l ++ vs).
Proof.
  induction vs as [|v vs IH]; intros b l Hv Hl Hh Hroom; simpl.
  - rewrite app_nil_r. auto.
  - simpl in Hroom.
    destruct (push_holds_room v b l Hv Hl Hh) as [Hr Hh1]; [lia|].
    pose proof (valid_exec (Push v) b Hv) as Hv1.
    pose proof (chained_push v b Hv Hl) as Hl1.
    simpl in Hv1.
    assert (Hc1 : count (snd (push v b)) = count b + 1).
    { destruct Hh as [Hc _], Hh1 as [Hc1 _]. rewrite Hc1, Hc, length_app.
      simpl. lia. }
    destruct (push v b) as [r b1]. simpl in *. subst r.
    destruct (IH b1 (l ++ [v]) Hv1 Hl1 Hh1) as (Hrs & Hv2 & Hl2 & Hh2); [lia|].
    destruct (push_all vs b1) as [rs b2]. simpl in *. subst rs.
    rewrite <- app_assoc in Hh2. auto.
Qed.

Lemma holds_lookup b l i :
  0 <= i < count b -> holds b l -> logical b i = l !! Z.to_nat i.
Proof.
  intros Hi [Hc Hel].
  destruct (lookup_lt_is_Some_2 l (Z.to_nat i)) as [x Hx]; [lia|].
  rewrite Hx. rewrite <- (Hel _ _ Hx). f_equal. lia.
Qed.

Lemma full_slot_logical b p :
  valid b -> 0 <= p < capacity ->
  exists i, 0 <= i < capacity /\ (head b + i) mod capacity = p.
Proof.
  intros (_ & Hh & _ & _) Hp.
  exists ((p - head b) mod capacity). split.
  - apply Z.mod_pos_bound. lia.
  - unwrap. split_tests; unwrap; split_tests; lia.
Qed.

(** C3. From an empty buffer, [capacity + 1] calls of [push] return [true]
    [capacity] times and then [false]; afterwards [size] is [capacity],
    index [i] designates the value pushed by call [i + 2], and no storage
    slot holds anything but the values of the calls after the first. *)
Theorem push_beyond_capacity (b : CB) (vs : list T) :
  valid b -> count b = 0 ->
  Z.of_nat (length vs) = capacity + 1 ->
  let r := push_all vs b in
  fst r = replicate (Z.to_nat capacity) true ++ [false] /\
  fst (size (snd r)) = capacity /\
  (forall i, 0 <= i < capacity ->
     load (buffer (snd r)) (fst (subscript i (snd r)))
     = vs !! S (Z.to_nat i)) /\
  (forall p x, load (buffer (snd r)) p = Some x -> In x (drop 1 vs)).
Proof.
  intros Hb H0 Hlen. cbv zeta.
  destruct (exists_last (l := vs)) as (vs1 & v & ->).
  { intros ->. simpl in Hlen. lia. }
  rewrite length_app in Hlen. simpl in Hlen.
  rewrite push_all_app.
  destruct (push_all_room vs1 b [])
    as (Hr & Hv & Hl & Hh);
    [assumption | left; assumption
    | split; [assumption | intros i x Hix; discriminate]
    | lia |].
  simpl in Hh.
  set (b1 := snd (push_all vs1 b)) in *.
  assert (Hfull : count b1 = capacity) by (destruct Hh as [-> _]; lia).
  destruct (push_holds_full v b1 vs1 Hv Hl Hh Hfull) as [Hf Hh2].
  pose proof (valid_exec (Push v) b1 Hv) as Hv2. simpl in Hv2.
  simpl. destruct (push v b1) as [r b2]. simpl in *. subst r.
  assert (Hdrop : drop 1 (vs1 ++ [v]) = drop 1 vs1 ++ [v]).
  { destruct vs1; [simpl in Hlen; lia | reflexivity]. }
  assert (Hc2 : count b2 = capacity).
  { destruct Hh2 as [-> _]. rewrite length_app, length_drop. simpl. lia. }
  split; [|split; [|split]].
  - rewrite Hr. f_equal. f_equal. lia.
  - assumption.
  - intros i Hi. unfold subscript. rewrite Z.geb_leb.
    destruct (Z.leb_spec (count b2) i); [lia|]. simpl.
    destruct Hv2 as (_ & Hh2' & _).
    rewrite rem_is_mod by lia.
    replace (head b2 - 0 + i) with (head b2 + i) by lia.
    change (logical b2 i = (vs1 ++ [v]) !! S (Z.to_nat i)).
    rewrite (holds_lookup b2 (drop 1 vs1 ++ [v]) i); [|lia|assumption].
    rewrite <- Hdrop, lookup_drop. reflexivity.
  - intros p x Hp. rewrite Hdrop.
    pose proof (load_Some_range _ _ _ Hp) as Hrange.
    destruct Hv2 as (Hlen2 & Hv2').
    destruct (full_slot_logical b2 p) as (i & Hi & Hslot);
      [repeat split; tauto || lia | lia |].
    rewrite <- Hslot in Hp.
    change (logical b2 i = Some x) in Hp.
    rewrite (holds_lookup b2 (drop 1 vs1 ++ [v]) i) in Hp;
      [|lia|assumption].
    apply list_elem_of_In. eapply list_elem_of_lookup_2. eassumption.
Qed.

(** ** The copy loops *)

Section CopyLoop.

Context {R : Type}.
Variable convert : T -> R.
Variable mem : list T.
Variable in_range : Z -> bool.
Variable lim finish : Z.

(** A loop whose source pointer stops before [lim] never runs out of
    the fuel [copyToArray] gives it. *)
Lemma copy_loop_fuel :
  (forall c, in_range c = true -> c < lim) ->
  forall fuel current d dest,
    (Z.to_nat (lim - current) <= fuel)%nat ->
    copy_loop convert mem in_range finish fuel current d dest <> OutOfFuel.
Proof.
  intros Hr. induction fuel as [|n IH]; intros c d dest Hf; simpl.
  - destruct (in_range c) eqn:Hc; simpl; [|discriminate].
    apply Hr in Hc. lia.
  - destruct (in_range c && (d <? finish)); [|discriminate].
    destruct (load mem c); [|discriminate].
    destruct (load dest d); [|discriminate].
    apply IH. lia.
Qed.

(** What one loop writes: [n] consecutive source slots from [current]
    go, converted, to the destination slots from [d]; [n] is what is
    left of the source run or of the destination, whichever is less. *)
Lemma copy_loop_spec :
  (forall c, in_range c = (c <? lim)) ->
  lim <= Z.of_nat (length mem) ->
  forall fuel current d dest,
    (Z.to_nat (lim - current) <= fuel)%nat ->
    0 <= current -> 0 <= d -> finish <= Z.of_nat (length dest) ->
    exists dest',
      copy_loop convert mem in_range finish fuel current d dest
      = Done (d + Z.max 0 (Z.min (lim - current) (finish - d)), dest') /\
      length dest' = length dest /\
      (forall j, d <= j < d + Z.min (lim - current) (finish - d) ->
         exists x, load mem (current + (j - d)) = Some x /\
                   load dest' j = Some (convert x)) /\
      (forall j, ~ (d <= j < d + Z.min (lim - current) (finish - d)) ->
         load dest' j = load dest j).
Proof.
  intros Hr Hlim.
  induction fuel as [|n IH]; intros c d dest Hf Hc Hd Hfin;
    simpl; rewrite Hr;
    destruct (Z.ltb_spec c lim); destruct (Z.ltb_spec d finish); simpl;
    try lia;
    try (exists dest; split; [do 2 f_equal; lia|];
         split; [reflexivity|]; split; [intros j Hj; lia | reflexivity]).
  destruct (load_in_range mem c) as [x Hx]; [lia|].
  destruct (load_in_range dest d) as [y Hy]; [lia|].
  rewrite Hx, Hy.
  destruct (IH (c + 1) (d + 1) (store dest d (convert x)))
    as (dest' & Hrun & Hlen & Hin & Hout);
    [lia | lia | lia | rewrite length_store; lia |].
  exists dest'. split; [rewrite Hrun; do 2 f_equal; lia|].
  split; [rewrite Hlen; apply length_store|]. split.
  - intros j Hj. destruct (Z.eq_dec j d) as [-> | Hne].
    + exists x. split; [rewrite <- Hx; f_equal; lia|].
      rewrite Hout by lia. apply load_store_eq. lia.
    + destruct (Hin j) as (x' & Hx' & Hj'); [lia|].
      exists x'. split; [rewrite <- Hx'; f_equal; lia | assumption].
  - intros j Hj. rewrite Hout by lia. apply load_store_ne. lia.
Qed.

End CopyLoop.

(** The plain overload is the converting one at the identity. *)
Lemma copyToArray_as_convert (dest : list T) b :
  copyToArray dest b = copyToArray_convert dest (fun x => x) b.
Proof. reflexivity. Qed.

(** The fuel given to the two loops is enough in every state. *)
Lemma copyToArray_fuel {R} (convertFn : T -> R) dest b :
  fst (copyToArray_convert dest convertFn b) <> OutOfFuel.
Proof.
  unfold copyToArray_convert.
  assert (H1 : forall fuel current d dst,
    (Z.to_nat (capacity - current) <= fuel)%nat ->
    copy_loop convertFn (buffer b) (fun current => current <? 0 + capacity)
              (0 + count b) fuel current d dst <> OutOfFuel).
  { apply copy_loop_fuel. intros c Hc. apply Z.ltb_lt in Hc. lia. }
  assert (H2 : forall fuel current d dst,
    (Z.to_nat (tail b + 1 - current) <= fuel)%nat ->
    copy_loop convertFn (buffer b) (fun current => current <=? tail b)
              (0 + count b) fuel current d dst <> OutOfFuel).
  { apply copy_loop_fuel. intros c Hc. apply Z.leb_le in Hc. lia. }
  specialize (H1 (Z.to_nat (capacity - head b)) (head b) 0 dest).
  destruct (copy_loop _ _ _ _ (Z.to_nat (capacity - head b)) _ _ _)
    as [[d dest1] | |]; [|discriminate|exfalso; apply H1; [lia|reflexivity]].
  specialize (H2 (Z.to_nat (tail b + 1)) 0 d dest1).
  destruct (copy_loop _ _ _ _ (Z.to_nat (tail b + 1)) _ _ _)
    as [[d2 dest2] | |]; [discriminate|discriminate|].
  exfalso. apply H2; [lia|reflexivity].
Qed.

(** In a state that satisfies the invariant the two loops write the
    [count] logical elements, in order, to the start of the destination. *)
Lemma copyToArray_convert_spec {R} (convert : T -> R) (dest : list R) b :
  valid b -> chained b -> count b <= Z.of_nat (length dest) ->
  exists out,
    fst (copyToArray_convert dest convert b) = Done out /\
    length out = length dest /\
    (forall j, 0 <= j < count b ->
       exists x, logical b j = Some x /\ load out j = Some (convert x)) /\
    (forall j, ~ (0 <= j < count b) -> load out j = load dest j).
Proof.
  intros (Hlen & Hh & Ht & Hc) Hl Hdest. unfold copyToArray_convert.
  destruct (copy_loop_spec convert (buffer b)
              (fun current => current <? 0 + capacity) capacity (0 + count b)
              (fun c => eq_refl) ltac:(lia)
              (Z.to_nat (capacity - head b)) (head b) 0 dest)
    as (dest1 & Hrun1 & Hlen1 & Hin1 & Hout1); [lia | lia | lia | lia |].
  rewrite Hrun1. clear Hrun1.
  destruct (copy_loop_spec convert (buffer b)
              (fun current => current <=? tail b) (tail b + 1) (0 + count b)
              ltac:(intros c; destruct (Z.leb_spec c (tail b));
                    destruct (Z.ltb_spec c (tail b + 1)); lia || reflexivity)
              ltac:(lia)
              (Z.to_nat (tail b + 1)) 0
              (0 + Z.max 0 (Z.min (capacity - head b) (0 + count b - 0)))
              dest1)
    as (out & Hrun2 & Hlen2 & Hin2 & Hout2); [lia | lia | lia | lia |].
  rewrite Hrun2. clear Hrun2.
  exists out. split; [reflexivity|]. split; [congruence|].
  pose proof Hl as Hlink.
  unfold logical. split.
  - intros j Hj.
    destruct (Z.lt_ge_cases j (capacity - head b)) as [Hlt | Hge].
    + destruct (Hin1 j) as (x & Hx & Hj1); [lia|].
      exists x. split.
      * rewrite <- Hx. f_equal. unwrap. split_tests; lia.
      * rewrite Hout2 by lia. assumption.
    + destruct Hlink as [? | Hlink]; [lia|].
      rewrite Hlink in Hin2. unwrap.
      destruct (Hin2 j) as (x & Hx & Hj2); [split_tests; lia|].
      exists x. split; [|assumption].
      rewrite <- Hx. f_equal. split_tests; lia.
  - intros j Hj.
    destruct Hlink as [? | Hlink];
      [|rewrite Hlink in Hout2; unwrap];
      (rewrite Hout2 by (split_tests; lia)); apply Hout1; lia.
Qed.

(** C5. In a reachable state, with a destination of at least [count]
    slots, either overload of [copyToArray] runs to its end and writes
    [count] slots: slot [j] of the destination receives the element (or its
    conversion) of storage slot [(head + j) mod capacity], for
    [0 <= j < count], and the destination is otherwise as it was. *)
Theorem copyToArray_spec {R : Type} (convertFn : T -> R)
    (dest : list T) (destR : list R) (b : CB) :
  reachable b ->
  count b <= Z.of_nat (length dest) ->
  count b <= Z.of_nat (length destR) ->
  (exists out,
     fst (copyToArray dest b) = Done out /\
     length out = length dest /\
     (forall j, 0 <= j < count b ->
        exists x, load (buffer b) ((head b + j) mod capacity) = Some x /\
                  load out j = Some x) /\
     (forall j, ~ (0 <= j < count b) -> load out j = load dest j)) /\
  (exists out,
     fst (copyToArray_convert destR convertFn b) = Done out /\
     length out = length destR /\
     (forall j, 0 <= j < count b ->
        exists x, load (buffer b) ((head b + j) mod capacity) = Some x /\
                  load out j = Some (convertFn x)) /\
     (forall j, ~ (0 <= j < count b) -> load out j = load destR j)).
Proof.
  intros Hr Hd HdR.
  pose proof (reachable_valid b Hr) as Hv.
  pose proof (linked_chained b (reachable_linked b Hr)) as Hl.
  split.
  - rewrite copyToArray_as_convert.
    apply (copyToArray_convert_spec (fun x => x) dest b Hv Hl Hd).
  - apply (copyToArray_convert_spec convertFn destR b Hv Hl HdR).
Qed.

(** ** Single calls *)

(** C1. [push] moves [tail] one slot forward, wrapping to slot 0 at
    [capacity], and stores the value there, leaving every other slot as it
    was. On a full buffer [head] moves one slot forward as well (wrapping),
    [count] stays at [capacity] and the result is [false]. Otherwise
    [count] grows by one and the result is [true]; [head] is set to the new
    [tail] when the buffer was empty and is kept otherwise. *)
Theorem push_spec (v : T) (b : CB) :
  valid b ->
  let r := push v b in
  let t' := (tail b + 1) mod capacity in
  tail (snd r) = t' /\
  load (buffer (snd r)) t' = Some v /\
  (forall p, p <> t' -> load (buffer (snd r)) p = load (buffer b) p) /\
  (count b = capacity ->
     fst r = false /\
     head (snd r) = (head b + 1) mod capacity /\
     count (snd r) = capacity) /\
  (count b <> capacity ->
     fst r = true /\
     count (snd r) = count b + 1 /\
     (count b = 0 -> head (snd r) = tail (snd r)) /\
     (count b <> 0 -> head (snd r) = head b)).
Proof.
  intros (Hlen & Hh & Ht & Hc). cbv zeta.
  assert (Ht' : (if tail b + 1 =? 0 + capacity then 0 else tail b + 1)
                = (tail b + 1) mod capacity)
    by (unwrap; split_tests; lia).
  repeat split.
  - unfold push. rewrite Ht'. destruct (count b =? capacity); reflexivity.
  - unfold push. rewrite Ht'.
    destruct (count b =? capacity); simpl;
      apply load_store_eq; rewrite Hlen; unwrap; split_tests; lia.
  - intros p Hp. unfold push. rewrite Ht'.
    destruct (count b =? capacity); simpl;
      apply load_store_ne; congruence.
  - unfold push. rewrite (proj2 (Z.eqb_eq _ _) H). reflexivity.
  - unfold push. rewrite (proj2 (Z.eqb_eq _ _) H). simpl.
    unwrap; split_tests; lia.
  - unfold push. rewrite (proj2 (Z.eqb_eq _ _) H). simpl. assumption.
  - unfold push. rewrite (proj2 (Z.eqb_neq _ _) H). reflexivity.
  - unfold push. rewrite (proj2 (Z.eqb_neq _ _) H). simpl. unwrap. lia.
  - intros H0. unfold push. rewrite (proj2 (Z.eqb_neq _ _) H). simpl.
    rewrite (proj2 (Z.eqb_eq _ _) H0). reflexivity.
  - intros H0. unfold push. rewrite (proj2 (Z.eqb_neq _ _) H). simpl.
    rewrite (proj2 (Z.eqb_neq _ _) H0). reflexivity.
Qed.

(** C2. Both overloads of [operator[]] return the slot of [tail] for an
    index at or beyond [count], and the slot [(head + index) mod capacity]
    for a smaller one. The slot returned always lies in the storage, and
    the buffer is left as it was. *)
Theorem subscript_spec (i : Z) (b : CB) :
  valid b -> 0 <= i ->
  (count b <= i ->
     fst (subscript i b) = tail b /\ fst (subscript_const i b) = tail b) /\
  (i < count b ->
     fst (subscript i b) = (head b + i) mod capacity /\
     fst (subscript_const i b) = (head b + i) mod capacity) /\
  is_Some (load (buffer b) (fst (subscript i b))) /\
  is_Some (load (buffer b) (fst (subscript_const i b))) /\
  snd (subscript i b) = b /\ snd (subscript_const i b) = b.
Proof.
  intros (Hlen & Hh & Ht & Hc) Hi.
  assert (Hrem : Z.rem (head b - 0 + i) capacity = (head b + i) mod capacity)
    by (rewrite rem_is_mod by lia; f_equal; lia).
  assert (Hslot : 0 <= (head b + i) mod capacity < capacity)
    by (apply Z.mod_pos_bound; lia).
  unfold subscript, subscript_const. rewrite Z.geb_leb, Hrem.
  destruct (Z.leb_spec (count b) i); simpl;
    (repeat split; try lia; try (apply load_in_range; lia)).
Qed.

(** C6. On an empty buffer [shift] returns the value in the slot of
    [head] and [pop] the value in the slot of [tail]; neither changes the
    pointers, the count or the storage. *)
Theorem empty_removal (b : CB) :
  valid b -> count b = 0 ->
  exists x y,
    load (buffer b) (head b) = Some x /\ shift b = (Some x, b) /\
    load (buffer b) (tail b) = Some y /\ pop b = (Some y, b).
Proof.
  intros (Hlen & Hh & Ht & Hc) H0.
  destruct (load_in_range (buffer b) (head b)) as [x Hx]; [lia|].
  destruct (load_in_range (buffer b) (tail b)) as [y Hy]; [lia|].
  exists x, y. unfold shift, pop. rewrite H0, Hx, Hy. simpl. auto.
Qed.

(** C8. On an empty buffer, [unshift v] followed by [shift] returns [v]
    and leaves the buffer empty. *)
Theorem unshift_shift (v : T) (b : CB) :
  valid b -> count b = 0 ->
  let b1 := snd (unshift v b) in
  fst (shift b1) = Some v /\
  count (snd (shift b1)) = 0 /\
  fst (isEmpty (snd (shift b1))) = true.
Proof.
  intros (Hlen & Hh & Ht & Hc) H0. cbv zeta.
  unfold unshift. rewrite H0.
  destruct (Z.eqb_spec 0 capacity); [lia|]. simpl.
  unfold shift, isEmpty. simpl. rewrite (wrapIT_small (0 + 1)) by lia. simpl.
  rewrite load_store_eq by (split_tests; lia).
  rewrite wrapIT_small by lia. auto.
Qed.

(** ** Reachable states *)

(** C7. In every reachable state [head] and [tail] are offsets of storage
    slots. *)
Theorem reachable_pointers_in_range (b : CB) :
  reachable b ->
  (0 <= head b < capacity) /\ (0 <= tail b < capacity).
Proof.
  intros Hr. destruct (reachable_valid b Hr) as (_ & Hh & Ht & _). auto.
Qed.

(** C4, as the code has it. In a reachable state with [count = 0], [head]
    is on the slot of [tail] or on the slot after it (wrapping). *)
Theorem empty_pointers (b : CB) :
  reachable b -> count b = 0 ->
  head b = tail b \/ head b = (tail b + 1) mod capacity.
Proof.
  intros Hr H0.
  destruct (reachable_valid b Hr) as (_ & Hh & Ht & _).
  destruct (reachable_linked b Hr) as [[_ Hht] | Hl]; [left; assumption|].
  right. rewrite H0 in Hl. unwrap. split_tests; lia.
Qed.

(** C9. In a reachable state [isFull] answers whether [size] is
    [capacity], [isEmpty] whether it is 0, and [available] and [size] add
    up to [capacity]; the four queries leave the buffer as it was. *)
Theorem queries_spec (b : CB) :
  reachable b ->
  (fst (isFull b) = true <-> fst (size b) = capacity) /\
  (fst (isEmpty b) = true <-> fst (size b) = 0) /\
  fst (available b) + fst (size b) = capacity /\
  snd (size b) = b /\ snd (available b) = b /\
  snd (isEmpty b) = b /\ snd (isFull b) = b.
Proof.
  intros Hr. destruct (reachable_valid b Hr) as (_ & _ & _ & Hc).
  unfold isFull, isEmpty, size, available. simpl.
  rewrite wrapIT_small by lia.
  repeat split; try apply Z.eqb_eq; lia.
Qed.

(** ** Where the writes of [copyToArray] land *)

Section InMemoryFrame.

Context {V : Type}.
Variable as_T : V -> option T.
Variable put : T -> V.
Variable buf dst dst_len : Z.
Variable in_range : Z -> bool.
Variable lim finish : Z.

(** A loop whose destination pointer stays inside a destination array
    that does not meet the storage runs to its end and changes no cell
    outside the cells from [dest] up to [finish]. *)
Lemma copy_loop_at_frame :
  (forall c, in_range c = (c <? lim)) ->
  lim <= buf + capacity ->
  finish <= dst + dst_len ->
  (dst + dst_len <= buf \/ buf + capacity <= dst) ->
  0 <= buf -> 0 <= dst ->
  forall fuel current dest mem,
    (Z.to_nat (lim - current) <= fuel)%nat ->
    buf <= current -> dst <= dest ->
    buf + capacity <= Z.of_nat (length mem) ->
    dst + dst_len <= Z.of_nat (length mem) ->
    (forall a, buf <= a < buf + capacity ->
       exists c x, load mem a = Some c /\ as_T c = Some x) ->
    exists mem',
      copy_loop_at as_T put buf dst dst_len in_range finish
                   fuel current dest mem
      = Done (dest + Z.max 0 (Z.min (lim - current) (finish - dest)), mem') /\
      length mem' = length mem /\
      (forall a, ~ (dest <= a < finish) -> load mem' a = load mem a).
Proof.
  intros Hr Hlim Hfin Hdisj Hbuf Hdst.
  induction fuel as [|n IH];
    intros c d mem Hf Hc Hd Hmem Hmemd Htyped;
    simpl; rewrite Hr;
    destruct (Z.ltb_spec c lim); destruct (Z.ltb_spec d finish); simpl;
    try lia;
    try (exists mem; split; [do 2 f_equal; lia|];
         split; [reflexivity | reflexivity]).
  destruct (Htyped c) as (cell & x & Hcell & Hx); [lia|].
  unfold load_within.
  destruct (Z.leb_spec buf c); [|lia].
  destruct (Z.ltb_spec c (buf + capacity)); [|lia].
  destruct (Z.leb_spec dst d); [|lia].
  destruct (Z.ltb_spec d (dst + dst_len)); [|lia].
  simpl. rewrite Hcell.
  destruct (load_in_range mem d) as [y Hy]; [lia|]. rewrite Hy, Hx.
  destruct (IH (c + 1) (d + 1) (store mem d (put x)))
    as (mem' & Hrun & Hlen & Hout);
    [lia | lia | lia | rewrite length_store; lia | rewrite length_store; lia
    | |].
  { intros a Ha. rewrite load_store_ne by lia. apply Htyped. assumption. }
  exists mem'. split; [rewrite Hrun; do 2 f_equal; lia|].
  split; [rewrite Hlen; apply length_store|].
  intros a Ha. rewrite Hout by lia. apply load_store_ne. lia.
Qed.

End InMemoryFrame.

(** Both loops, for either overload. *)
Lemma copy_loops_at_frame {V} (as_T : V -> option T) (put : T -> V)
    (dst dst_len : Z) (p : Placed V) :
  placed_ok as_T p ->
  0 <= dst -> dst + dst_len <= Z.of_nat (length (cells p)) ->
  count_of p <= dst_len ->
  (dst + dst_len <= buffer_at p \/ buffer_at p + capacity <= dst) ->
  exists d mem1 mem2,
    copy_loop_at as_T put (buffer_at p) dst dst_len
                 (fun current => current <? buffer_at p + capacity)
                 (dst + count_of p)
                 (Z.to_nat (buffer_at p + capacity - head_at p))
                 (head_at p) dst (cells p) = Done (d, mem1) /\
    copy_loop_at as_T put (buffer_at p) dst dst_len
                 (fun current => current <=? tail_at p)
                 (dst + count_of p)
                 (Z.to_nat (tail_at p + 1 - buffer_at p))
                 (buffer_at p) d mem1
    = Done (d + Z.max 0 (Z.min (tail_at p + 1 - buffer_at p)
                               (dst + count_of p - d)), mem2) /\
    forall a, ~ (dst <= a < dst + count_of p) ->
      load mem2 a = load (cells p) a.
Proof.
  intros (Hbuf & Hmem & Hh & Ht & Hc & Htyped) Hdst Hmemd Hlen Hdisj.
  destruct (copy_loop_at_frame as_T put (buffer_at p) dst dst_len
              (fun current => current <? buffer_at p + capacity)
              (buffer_at p + capacity) (dst + count_of p)
              (fun c => eq_refl) ltac:(lia) ltac:(lia) Hdisj Hbuf Hdst
              (Z.to_nat (buffer_at p + capacity - head_at p))
              (head_at p) dst (cells p))
    as (mem1 & Hrun1 & Hlen1 & Hout1); [lia | lia | lia | lia | lia | exact Htyped |].
  destruct (copy_loop_at_frame as_T put (buffer_at p) dst dst_len
              (fun current => current <=? tail_at p)
              (tail_at p + 1) (dst + count_of p)
              ltac:(intros c; destruct (Z.leb_spec c (tail_at p));
                    destruct (Z.ltb_spec c (tail_at p + 1));
                    lia || reflexivity)
              ltac:(lia) ltac:(lia) Hdisj Hbuf Hdst
              (Z.to_nat (tail_at p + 1 - buffer_at p))
              (buffer_at p)
              (dst + Z.max 0 (Z.min (buffer_at p + capacity - head_at p)
                                    (dst + count_of p - dst)))
              mem1)
    as (mem2 & Hrun2 & Hlen2 & Hout2); [lia | lia | lia | lia | lia | |].
  { intros a Ha. rewrite Hout1 by lia. apply Htyped. assumption. }
  eexists _, mem1, mem2. split; [exact Hrun1|]. split; [exact Hrun2|].
  intros a Ha. rewrite Hout2 by lia. apply Hout1. lia.
Qed.

(** C10, as the code has it. With the storage and the destination in one
    memory: for a buffer with in-range pointers and a destination array of
    at least [count] cells that does not meet the storage, either overload
    of [copyToArray] runs to its end and leaves [head], [tail], [count] and
    every storage slot as they were; it changes no cell at all outside the
    first [count] cells of the destination. *)
Theorem copyToArray_at_frame {V R : Type} (as_T : V -> option T)
    (of_T : T -> V) (of_R : R -> V) (convertFn : T -> R)
    (dst dst_len : Z) (p : Placed V) :
  placed_ok as_T p ->
  0 <= dst -> dst + dst_len <= Z.of_nat (length (cells p)) ->
  count_of p <= dst_len ->
  (dst + dst_len <= buffer_at p \/ buffer_at p + capacity <= dst) ->
  (exists p',
     copyToArray_at as_T of_T dst dst_len p = Done p' /\
     same_buffer p p' /\
     forall a, ~ (dst <= a < dst + count_of p) ->
       load (cells p') a = load (cells p) a) /\
  (exists p',
     copyToArray_convert_at as_T of_R dst dst_len convertFn p = Done p' /\
     same_buffer p p' /\
     forall a, ~ (dst <= a < dst + count_of p) ->
       load (cells p') a = load (cells p) a).
Proof.
  intros Hok Hdst Hmemd Hlen Hdisj.
  pose proof Hok as (Hbuf & Hmem & Hh & Ht & Hc & Htyped).
  split.
  - destruct (copy_loops_at_frame as_T of_T dst dst_len p
                Hok Hdst Hmemd Hlen Hdisj)
      as (d & mem1 & mem2 & Hrun1 & Hrun2 & Hout).
    unfold copyToArray_at. cbv zeta. rewrite Hrun1, Hrun2.
    eexists. split; [reflexivity|]. simpl.
    split; [|exact Hout].
    repeat split. intros i Hi. apply Hout. lia.
  - destruct (copy_loops_at_frame as_T (fun x => of_R (convertFn x))
                dst dst_len p Hok Hdst Hmemd Hlen Hdisj)
      as (d & mem1 & mem2 & Hrun1 & Hrun2 & Hout).
    unfold copyToArray_convert_at. cbv zeta. rewrite Hrun1, Hrun2.
    eexists. split; [reflexivity|]. simpl.
    split; [|exact Hout].
    repeat split. intros i Hi. apply Hout. lia.
Qed.

(** ** The calls on the sequence of values held *)

Lemma chained_exec c b : valid b -> chained b -> chained (exec c b).
Proof.
  intros (Hlen & Hh & Ht & Hc) Hl. unfold chained in *.
  destruct Hl as [H0 | Hl]; unwrap;
    destruct c; unfold exec, unshift, push, shift, shiftNoReturn, pop,
      popNoReturn, clear; split_tests; simpl; unwrap; split_tests; lia.
Qed.

Lemma unshift_holds_room v b l :
  valid b -> chained b -> holds b l -> count b <> capacity ->
  fst (unshift v b) = true /\ holds (snd (unshift v b)) (v :: l).
Proof.
  intros (Hlen & Hh & Ht & Hc) Hl [Hcnt Hel] Hne.
  unfold unshift. rewrite (proj2 (Z.eqb_neq _ _) Hne). simpl.
  split; [reflexivity|]. unfold holds, logical. simpl.
  rewrite wrapIT_small by lia. split; [lia|].
  intros [|k] x Hix; simpl in Hix.
  - injection Hix as <-.
    change (Z.of_nat 0) with 0. rewrite Z.add_0_r.
    rewrite Z.mod_small by (split_tests; lia).
    apply load_store_eq. rewrite Hlen. split_tests; lia.
  - pose proof (lookup_lt_Some _ _ _ Hix) as Hk.
    specialize (Hel k x Hix). unfold logical in Hel.
    rewrite load_store_ne by (split_tests; unwrap; split_tests; lia).
    rewrite <- Hel. f_equal. split_tests; unwrap; split_tests; lia.
Qed.

Lemma unshift_holds_full v b l :
  valid b -> chained b -> holds b l -> count b = capacity ->
  fst (unshift v b) = false /\
  holds (snd (unshift v b)) (v :: take (length l - 1) l).
Proof.
  intros (Hlen & Hh & Ht & Hc) Hl [Hcnt Hel] Hfull.
  unfold unshift. rewrite (proj2 (Z.eqb_eq _ _) Hfull). simpl.
  split; [reflexivity|]. unfold holds, logical. simpl.
  split; [rewrite length_take; lia|].
  intros [|k] x Hix; simpl in Hix.
  - injection Hix as <-.
    change (Z.of_nat 0) with 0. rewrite Z.add_0_r.
    rewrite Z.mod_small by (split_tests; lia).
    apply load_store_eq. rewrite Hlen. split_tests; lia.
  - pose proof (lookup_lt_Some _ _ _ Hix) as Hk.
    rewrite length_take in Hk.
    rewrite lookup_take_lt in Hix by lia.
    specialize (Hel k x Hix). unfold logical in Hel.
    rewrite load_store_ne by (split_tests; unwrap; split_tests; lia).
    rewrite <- Hel. f_equal. split_tests; unwrap; split_tests; lia.
Qed.

Lemma shift_holds b x l :
  valid b -> holds b (x :: l) ->
  fst (shift b) = Some x /\ holds (snd (shift b)) l.
Proof.
  intros (Hlen & Hh & Ht & Hc) [Hcnt Hel]. simpl length in Hcnt.
  unfold shift. destruct (Z.eqb_spec (count b) 0); [lia|]. simpl. split.
  - specialize (Hel 0%nat x eq_refl). unfold logical in Hel.
    rewrite <- Hel. f_equal. unwrap. split_tests; lia.
  - unfold holds, logical. simpl. rewrite wrapIT_small by lia.
    split; [lia|]. intros i y Hiy.
    pose proof (lookup_lt_Some _ _ _ Hiy) as Hi.
    specialize (Hel (S i) y Hiy). unfold logical in Hel.
    rewrite <- Hel. f_equal. rewrite Z.geb_leb.
    split_tests; unwrap; split_tests; lia.
Qed.

Lemma pop_holds b x l :
  valid b -> chained b -> holds b (l ++ [x]) ->
  fst (pop b) = Some x /\ holds (snd (pop b)) l.
Proof.
  intros (Hlen & Hh & Ht & Hc) Hl [Hcnt Hel].
  rewrite length_app in Hcnt. simpl length in Hcnt.
  unfold pop. destruct (Z.eqb_spec (count b) 0); [lia|]. simpl. split.
  - destruct Hl as [? | Hl]; [lia|].
    specialize (Hel (length l) x (list_lookup_middle l [] x _ eq_refl)).
    unfold logical in Hel. rewrite <- Hel, Hl. f_equal.
    unwrap. split_tests; lia.
  - unfold holds, logical. simpl. rewrite wrapIT_small by lia.
    split; [lia|]. intros i y Hiy.
    apply Hel. apply lookup_app_l_Some. assumption.
Qed.

Lemma removal_nop_on_empty b :
  count b = 0 -> snd (shift b) = b /\ snd (pop b) = b.
Proof.
  intros H0. unfold shift, pop. rewrite H0. split; reflexivity.
Qed.

Lemma discard_states b :
  snd (shiftNoReturn b) = snd (shift b) /\ snd (popNoReturn b) = snd (pop b).
Proof.
  unfold shiftNoReturn, shift, popNoReturn, pop.
  destruct (count b =? 0); split; reflexivity.
Qed.

Lemma represents_ctor mem :
  length mem = Z.to_nat capacity -> represents (CircularBuffer_ctor mem) [].
Proof.
  intros Hm. split; [apply valid_ctor; assumption|].
  split; [left; reflexivity|].
  split; [reflexivity | intros i x Hix; discriminate].
Qed.

Lemma exec_represents c b l :
  represents b l -> represents (exec c b) (deque_exec c l).
Proof.
  intros (Hv & Hl & Hh).
  split; [apply valid_exec; assumption|].
  split; [apply chained_exec; assumption|].
  pose proof Hh as [Hcnt _].
  destruct c; simpl.
  - destruct (Z.eqb_spec (Z.of_nat (length l)) capacity).
    + apply unshift_holds_full; (assumption || lia).
    + apply unshift_holds_room; (assumption || lia).
  - destruct (Z.eqb_spec (Z.of_nat (length l)) capacity).
    + apply push_holds_full; (assumption || lia).
    + apply push_holds_room; (assumption || lia).
  - destruct l as [|x l].
    + rewrite (proj1 (removal_nop_on_empty b Hcnt)). assumption.
    + apply (shift_holds b x l Hv Hh).
  - rewrite (proj1 (discard_states b)). destruct l as [|x l].
    + rewrite (proj1 (removal_nop_on_empty b Hcnt)). assumption.
    + apply (shift_holds b x l Hv Hh).
  - destruct l as [|x l _] using rev_ind.
    + rewrite (proj2 (removal_nop_on_empty b Hcnt)). assumption.
    + rewrite length_app, take_app_length' by (simpl; lia).
      apply (pop_holds b x l Hv Hl Hh).
  - rewrite (proj2 (discard_states b)).
    destruct l as [|x l _] using rev_ind.
    + rewrite (proj2 (removal_nop_on_empty b Hcnt)). assumption.
    + rewrite length_app, take_app_length' by (simpl; lia).
      apply (pop_holds b x l Hv Hl Hh).
  - split; [reflexivity | intros i x Hix; discriminate].
Qed.

Lemma run_represents cs : forall b l,
  represents b l -> represents (run cs b) (deque_run cs l).
Proof.
  induction cs as [|c cs IH]; intros b l Hb; simpl.
  - assumption.
  - apply IH. apply exec_represents. assumption.
Qed.

Lemma represents_length b l : represents b l -> count b = Z.of_nat (length l).
Proof. intros (_ & _ & Hc & _). assumption. Qed.

Lemma represents_lookup b l i :
  represents b l -> 0 <= i < count b ->
  load (buffer b) ((head b + i) mod capacity) = l !! Z.to_nat i.
Proof.
  intros (_ & _ & Hh) Hi. apply (holds_lookup b l i Hi Hh).
Qed.

(** Two lists held by one state are the same list. *)
Lemma represents_unique b l1 l2 :
  represents b l1 -> represents b l2 -> l1 = l2.
Proof.
  intros H1 H2. apply list_eq. intros i.
  pose proof (represents_length b l1 H1) as Hc1.
  pose proof (represents_length b l2 H2) as Hc2.
  destruct (Nat.lt_ge_cases i (length l1)) as [Hi | Hi].
  - rewrite <- (Nat2Z.id i).
    rewrite <- (represents_lookup b l1 (Z.of_nat i) H1) by lia.
    apply (represents_lookup b l2 (Z.of_nat i) H2). lia.
  - rewrite !lookup_ge_None_2 by lia. reflexivity.
Qed.

(** X5. A buffer driven by any sequence of calls from its construction
    behaves as a double-ended queue bounded by [capacity]: the state stays
    well formed and holds, oldest first, the list [deque_run] computes;
    [size] is the length of that list and [operator[]] at an index below it
    designates the list's element at that index. *)
Theorem run_refines_deque (mem : list T) (cs : list call) :
  length mem = Z.to_nat capacity ->
  let b := run cs (CircularBuffer_ctor mem) in
  let l := deque_run cs [] in
  represents b l /\
  fst (size b) = Z.of_nat (length l) /\
  (length l <= Z.to_nat capacity)%nat /\
  forall i, (i < length l)%nat ->
    load (buffer b) (fst (subscript (Z.of_nat i) b)) = l !! i.
Proof.
  intros Hm. cbv zeta.
  pose proof (run_represents cs _ _ (represents_ctor mem Hm)) as Hr.
  set (b := run cs (CircularBuffer_ctor mem)) in *.
  set (l := deque_run cs []) in *.
  pose proof (represents_length b l Hr) as Hc.
  pose proof Hr as ((Hlen & Hh & Ht & Hcb) & _ & _).
  split; [assumption|]. split; [assumption|]. split; [lia|].
  intros i Hi. unfold subscript. rewrite Z.geb_leb.
  destruct (Z.leb_spec (count b) (Z.of_nat i)); [lia|]. simpl.
  rewrite rem_is_mod by lia.
  replace (head b - 0 + Z.of_nat i) with (head b + Z.of_nat i) by lia.
  rewrite (represents_lookup b l (Z.of_nat i) Hr) by lia.
  rewrite Nat2Z.id. reflexivity.
Qed.

(** X6. On a buffer that holds a non-empty list, [shift] returns the first
    value of the list and [pop] the last. *)
Theorem removal_results (b : CB) (l : list T) :
  represents b l -> l <> [] ->
  fst (shift b) = hd_error l /\ fst (pop b) = last l.
Proof.
  intros (Hv & Hl & Hh) Hne. split.
  - destruct l as [|x l]; [congruence|].
    apply (shift_holds b x l Hv Hh).
  - destruct l as [|x l _] using rev_ind; [congruence|].
    rewrite last_snoc. apply (pop_holds b x l Hv Hl Hh).
Qed.

(** ** Single calls, continued *)

(** X1. [unshift] moves [head] one slot back, wrapping from slot 0 to slot
    [capacity - 1], and stores the value there, leaving every other slot as
    it was. On a full buffer [tail] moves one slot back as well (wrapping),
    [count] stays at [capacity] and the result is [false]. Otherwise [count]
    grows by one and the result is [true]; [tail] is set to the new [head]
    when the buffer was empty and is kept otherwise. *)
Theorem unshift_spec (v : T) (b : CB) :
  valid b ->
  let r := unshift v b in
  let h' := (head b - 1) mod capacity in
  head (snd r) = h' /\
  load (buffer (snd r)) h' = Some v /\
  (forall p, p <> h' -> load (buffer (snd r)) p = load (buffer b) p) /\
  (count b = capacity ->
     fst r = false /\
     tail (snd r) = (tail b - 1) mod capacity /\
     count (snd r) = capacity) /\
  (count b <> capacity ->
     fst r = true /\
     count (snd r) = count b + 1 /\
     (count b = 0 -> tail (snd r) = head (snd r)) /\
     (count b <> 0 -> tail (snd r) = tail b)).
Proof.
  intros (Hlen & Hh & Ht & Hc). cbv zeta.
  assert (Hh' : (if head b =? 0 then 0 + capacity else head b) - 1
                = (head b - 1) mod capacity)
    by (unwrap; split_tests; lia).
  assert (Hrange : 0 <= (head b - 1) mod capacity < capacity)
    by (apply Z.mod_pos_bound; lia).
  split; [|split; [|split; [|split]]].
  - unfold unshift. rewrite Hh'. destruct (count b =? capacity); reflexivity.
  - unfold unshift. rewrite Hh'.
    destruct (count b =? capacity); simpl; apply load_store_eq; lia.
  - intros p Hp. unfold unshift. rewrite Hh'.
    destruct (count b =? capacity); simpl; apply load_store_ne; congruence.
  - intros Hfull. unfold unshift. rewrite (proj2 (Z.eqb_eq _ _) Hfull). simpl.
    split; [reflexivity|]. split; [|assumption]. unwrap. split_tests; lia.
  - intros Hroom. unfold unshift. rewrite (proj2 (Z.eqb_neq _ _) Hroom). simpl.
    split; [reflexivity|]. split; [unwrap; lia|].
    split; intros H0.
    + rewrite (proj2 (Z.eqb_eq _ _) H0). reflexivity.
    + rewrite (proj2 (Z.eqb_neq _ _) H0). reflexivity.
Qed.

(** X2. On a buffer that is not empty, [shift] returns the value in the
    slot of [head] and moves [head] one slot forward (wrapping); [pop]
    returns the value in the slot of [tail] and moves [tail] one slot back
    (wrapping). Either lowers [count] by one and leaves the storage and the
    other pointer alone. [shiftNoReturn] and [popNoReturn] leave the state
    that [shift] and [pop] leave, in every state. *)
Theorem removal_spec (b : CB) :
  valid b -> count b <> 0 ->
  (fst (shift b) = load (buffer b) (head b) /\ is_Some (fst (shift b)) /\
   head (snd (shift b)) = (head b + 1) mod capacity /\
   tail (snd (shift b)) = tail b /\
   count (snd (shift b)) = count b - 1 /\
   buffer (snd (shift b)) = buffer b) /\
  (fst (pop b) = load (buffer b) (tail b) /\ is_Some (fst (pop b)) /\
   tail (snd (pop b)) = (tail b - 1) mod capacity /\
   head (snd (pop b)) = head b /\
   count (snd (pop b)) = count b - 1 /\
   buffer (snd (pop b)) = buffer b) /\
  snd (shiftNoReturn b) = snd (shift b) /\
  snd (popNoReturn b) = snd (pop b).
Proof.
  intros (Hlen & Hh & Ht & Hc) Hne.
  unfold shift, pop, shiftNoReturn, popNoReturn.
  rewrite (proj2 (Z.eqb_neq _ _) Hne). simpl.
  rewrite Z.geb_leb, wrapIT_small by lia.
  repeat split; try (apply load_in_range; lia);
    unwrap; split_tests; lia.
Qed.

(** X3. In every reachable state [count] lies between 0 and [capacity] and
    the storage still has [capacity] slots. *)
Theorem reachable_count_bounds (b : CB) :
  reachable b ->
  0 <= count b <= capacity /\ length (buffer b) = Z.to_nat capacity.
Proof.
  intros Hr. destruct (reachable_valid b Hr) as (Hlen & _ & _ & Hc). auto.
Qed.

(** X4. In every reachable state that is not empty, [tail] is the slot
    [count - 1] steps after [head], modulo [capacity]. *)
Theorem reachable_tail_from_head (b : CB) :
  reachable b -> count b <> 0 ->
  tail b = (head b + count b - 1) mod capacity.
Proof.
  intros Hr Hne. destruct (reachable_linked b Hr) as [[H0 _] | Hl];
    [contradiction | assumption].
Qed.

(** ** Sequences of [push] *)

(** X7. From an empty buffer, pushing no more than [capacity] values
    returns [true] every time; afterwards [size] is the number of values
    and index [i] designates the [i]-th value pushed. *)
Theorem push_within_capacity (b : CB) (vs : list T) :
  valid b -> count b = 0 ->
  Z.of_nat (length vs) <= capacity ->
  let r := push_all vs b in
  fst r = replicate (length vs) true /\
  fst (size (snd r)) = Z.of_nat (length vs) /\
  (forall i, (i < length vs)%nat ->
     load (buffer (snd r)) (fst (subscript (Z.of_nat i) (snd r))) = vs !! i).
Proof.
  intros Hb H0 Hlen. cbv zeta.
  destruct (push_all_room vs b [])
    as (Hr & Hv & Hl & Hh);
    [assumption | left; assumption
    | split; [assumption | intros i x Hix; discriminate]
    | lia |].
  simpl in Hh. set (b1 := snd (push_all vs b)) in *.
  pose proof Hh as [Hc _]. pose proof Hv as (_ & Hh1 & _).
  split; [assumption|]. split; [assumption|].
  intros i Hi. unfold subscript. rewrite Z.geb_leb.
  destruct (Z.leb_spec (count b1) (Z.of_nat i)); [lia|]. simpl.
  rewrite rem_is_mod by lia.
  replace (head b1 - 0 + Z.of_nat i) with (head b1 + Z.of_nat i) by lia.
  change (logical b1 (Z.of_nat i) = vs !! i).
  rewrite (holds_lookup b1 vs (Z.of_nat i)); [|lia|assumption].
  rewrite Nat2Z.id. reflexivity.
Qed.

Lemma push_all_cons_snd v vs b :
  snd (push_all (v :: vs) b) = snd (push_all vs (snd (push v b))).
Proof.
  simpl. destruct (push v b) as [r b1]. simpl.
  destruct (push_all vs b1) as [rs b2]. reflexivity.
Qed.

Lemma push_all_represents (vs : list T) : forall (b : CB) (l : list T),
  represents b l ->
  represents (snd (push_all vs b))
             (drop (length (l ++ vs) - Z.to_nat capacity) (l ++ vs)).
Proof.
  induction vs as [|v vs IH]; intros b l Hb.
  - pose proof (represents_length b l Hb) as Hc.
    destruct Hb as ((Hlen & Hh & Ht & Hcb) & Hl & Hh').
    rewrite app_nil_r.
    replace (length l - Z.to_nat capacity)%nat with 0%nat by lia.
    simpl. exact (conj (conj Hlen (conj Hh (conj Ht Hcb))) (conj Hl Hh')).
  - rewrite push_all_cons_snd.
    pose proof (represents_length b l Hb) as Hc.
    pose proof Hb as ((_ & _ & _ & Hcb) & _).
    pose proof (exec_represents (Push v) b l Hb) as Hb1. simpl in Hb1.
    specialize (IH _ _ Hb1).
    destruct (Z.eqb_spec (Z.of_nat (length l)) capacity) as [Hfull | Hroom].
    + destruct l as [|x l]; [simpl in Hfull; lia|].
      simpl drop in IH. rewrite <- app_assoc in IH. simpl app in IH.
      simpl length in Hfull.
      replace (length ((x :: l) ++ v :: vs) - Z.to_nat capacity)%nat
        with (S (length (l ++ v :: vs) - Z.to_nat capacity))
        by (simpl; rewrite !length_app; simpl; lia).
      exact IH.
    + rewrite <- app_assoc in IH. exact IH.
Qed.

(** X8. Pushing any number of values onto a buffer that holds [l] leaves
    it holding the newest [capacity] values of [l] followed by the values
    pushed (all of them when they fit); [size] is then the smaller of
    [capacity] and the number of values held and pushed. *)
Theorem push_all_keeps_newest (vs : list T) (b : CB) (l : list T) :
  represents b l ->
  represents (snd (push_all vs b))
             (drop (length (l ++ vs) - Z.to_nat capacity) (l ++ vs)) /\
  fst (size (snd (push_all vs b)))
  = Z.min capacity (Z.of_nat (length l + length vs)).
Proof.
  intros Hb. pose proof (push_all_represents vs b l Hb) as Hr.
  split; [assumption|].
  apply represents_length in Hr. simpl. rewrite Hr.
  rewrite length_drop, length_app. lia.
Qed.

(** X9. On a buffer that holds [l], [operator[]] at an index below [size]
    designates the value of [l] at that index; at any other index it
    designates the newest value, the last of [l], when the buffer is not
    empty. Both overloads. *)
Theorem subscript_values (b : CB) (l : list T) (i : Z) :
  represents b l -> 0 <= i ->
  (i < count b ->
     load (buffer b) (fst (subscript i b)) = l !! Z.to_nat i /\
     load (buffer b) (fst (subscript_const i b)) = l !! Z.to_nat i) /\
  (count b <= i -> l <> [] ->
     load (buffer b) (fst (subscript i b)) = last l /\
     load (buffer b) (fst (subscript_const i b)) = last l).
Proof.
  intros Hr Hi.
  pose proof (represents_length b l Hr) as Hc.
  pose proof Hr as ((Hlen & Hh & Ht & Hcb) & Hl & Hh').
  unfold subscript, subscript_const. rewrite Z.geb_leb.
  split.
  - intros Hlt. destruct (Z.leb_spec (count b) i); [lia|]. simpl.
    rewrite rem_is_mod by lia.
    replace (head b - 0 + i) with (head b + i) by lia.
    rewrite (represents_lookup b l i Hr) by lia. auto.
  - intros Hge Hne. destruct (Z.leb_spec (count b) i); [|lia]. simpl.
    assert (Hpos : (0 < length l)%nat) by (destruct l; [congruence | simpl; lia]).
    destruct Hl as [? | Hl]; [lia|].
    rewrite last_lookup, Hl.
    replace (head b + count b - 1) with (head b + (count b - 1)) by lia.
    rewrite (represents_lookup b l (count b - 1) Hr) by lia.
    replace (Z.to_nat (count b - 1)) with (pred (length l)) by lia. auto.
Qed.

(** ** Export of the values held *)

Lemma load_of_nat {A} (mem : list A) i : load mem (Z.of_nat i) = mem !! i.
Proof.
  unfold load. destruct (Z.leb_spec 0 (Z.of_nat i)); [|lia].
  rewrite Nat2Z.id. reflexivity.
Qed.

Lemma copy_convert_contents {R} (f : T -> R) (dest : list R) b l :
  represents b l -> count b <= Z.of_nat (length dest) ->
  fst (copyToArray_convert dest f b)
  = Done (fmap f l ++ drop (length l) dest).
Proof.
  intros Hr Hd.
  pose proof (represents_length b l Hr) as Hc.
  pose proof Hr as (Hv & Hl & Hh).
  destruct (copyToArray_convert_spec f dest b Hv Hl Hd)
    as (out & Hrun & Hlen & Hin & Hout).
  rewrite Hrun. f_equal. apply list_eq. intros i.
  rewrite <- (load_of_nat out).
  destruct (Nat.lt_ge_cases i (length l)) as [Hi | Hi].
  - destruct (Hin (Z.of_nat i)) as (x & Hx & Hi'); [lia|].
    rewrite Hi'. change (logical b (Z.of_nat i) = Some x) in Hx.
    rewrite (holds_lookup b l (Z.of_nat i)) in Hx; [|lia|assumption].
    rewrite Nat2Z.id in Hx.
    rewrite lookup_app_l by (rewrite length_fmap; assumption).
    rewrite list_lookup_fmap, Hx. reflexivity.
  - rewrite Hout by lia. rewrite load_of_nat.
    rewrite lookup_app_r by (rewrite length_fmap; assumption).
    rewrite length_fmap, lookup_drop. f_equal. lia.
Qed.

(** X10. On a buffer that holds [l], with a destination of at least
    [size] slots, [copyToArray] overwrites the first [size] slots of the
    destination with [l] (each value converted, for the converting overload)
    and keeps the rest of the destination. *)
Theorem copyToArray_contents {R : Type} (convertFn : T -> R)
    (dest : list T) (destR : list R) (b : CB) (l : list T) :
  represents b l ->
  count b <= Z.of_nat (length dest) ->
  count b <= Z.of_nat (length destR) ->
  fst (copyToArray dest b) = Done (l ++ drop (length l) dest) /\
  fst (copyToArray_convert destR convertFn b)
  = Done (fmap convertFn l ++ drop (length l) destR).
Proof.
  intros Hr Hd HdR. split.
  - rewrite copyToArray_as_convert.
    rewrite (copy_convert_contents (fun x => x) dest b l Hr Hd).
    rewrite list_fmap_id. reflexivity.
  - apply (copy_convert_contents convertFn destR b l Hr HdR).
Qed.

Lemma represents_empty b : valid b -> count b = 0 -> represents b [].
Proof.
  intros Hv H0. split; [assumption|]. split; [left; assumption|].
  split; [assumption | intros i x Hix; discriminate].
Qed.

(** X11. Pushing any list of values into an empty buffer and exporting it
    yields the newest [capacity] of them, in the order pushed, at the start
    of the destination. *)
Theorem export_after_pushes (b : CB) (vs dest : list T) :
  valid b -> count b = 0 ->
  capacity <= Z.of_nat (length dest) ->
  let kept := drop (length vs - Z.to_nat capacity) vs in
  fst (copyToArray dest (snd (push_all vs b)))
  = Done (kept ++ drop (length kept) dest).
Proof.
  intros Hv H0 Hd. cbv zeta.
  pose proof (push_all_represents vs b [] (represents_empty b Hv H0)) as Hr.
  simpl in Hr.
  pose proof (represents_length _ _ Hr) as Hc.
  rewrite length_drop in Hc.
  rewrite copyToArray_as_convert.
  rewrite (copy_convert_contents (fun x => x) dest _ _ Hr) by lia.
  rewrite list_fmap_id. reflexivity.
Qed.

(** ** Draining *)

Lemma shift_all_represents l : forall b,
  represents b l ->
  fst (shift_all (length l) b) = fmap Some l /\
  represents (snd (shift_all (length l) b)) [].
Proof.
  induction l as [|x l IH]; intros b Hb; simpl.
  - auto.
  - pose proof Hb as (Hv & Hl & Hh).
    destruct (shift_holds b x l Hv Hh) as [Hx Hh1].
    pose proof (valid_exec Shift b Hv) as Hv1.
    pose proof (chained_exec Shift b Hv Hl) as Hl1. simpl in Hv1, Hl1.
    destruct (shift b) as [y b1]. simpl in *. subst y.
    destruct (IH b1 (conj Hv1 (conj Hl1 Hh1))) as [Hxs Hb2].
    destruct (shift_all (length l) b1) as [xs b2]. simpl in *. subst xs.
    auto.
Qed.

Lemma pop_all_represents l : forall b,
  represents b l ->
  fst (pop_all (length l) b) = fmap Some (rev l) /\
  represents (snd (pop_all (length l) b)) [].
Proof.
  induction l as [|x l IH] using rev_ind; intros b Hb.
  - simpl. auto.
  - rewrite length_app, Nat.add_1_r, rev_unit. simpl.
    pose proof Hb as (Hv & Hl & Hh).
    destruct (pop_holds b x l Hv Hl Hh) as [Hx Hh1].
    pose proof (valid_exec Pop b Hv) as Hv1.
    pose proof (chained_exec Pop b Hv Hl) as Hl1. simpl in Hv1, Hl1.
    destruct (pop b) as [y b1]. simpl in *. subst y.
    destruct (IH b1 (conj Hv1 (conj Hl1 Hh1))) as [Hxs Hb2].
    destruct (pop_all (length l) b1) as [xs b2]. simpl in *. subst xs.
    auto.
Qed.

(** X12. First in, first out: after pushing any list of values into an
    empty buffer, as many calls of [shift] as it holds return the newest
    [capacity] of the values in the order pushed, and leave it empty. *)
Theorem fifo_round_trip (b : CB) (vs : list T) :
  valid b -> count b = 0 ->
  let kept := drop (length vs - Z.to_nat capacity) vs in
  let r := shift_all (length kept) (snd (push_all vs b)) in
  fst r = fmap Some kept /\ fst (isEmpty (snd r)) = true.
Proof.
  intros Hv H0. cbv zeta.
  pose proof (push_all_represents vs b [] (represents_empty b Hv H0)) as Hr.
  simpl in Hr.
  destruct (shift_all_represents _ _ Hr) as [Hxs Hb2].
  split; [assumption|].
  apply represents_length in Hb2. simpl in *. rewrite Hb2. reflexivity.
Qed.

(** X13. Used from the back the buffer is a stack: after pushing any list
    of values into an empty buffer, as many calls of [pop] as it holds
    return the newest [capacity] of the values, last pushed first, and leave
    it empty. *)
Theorem lifo_round_trip (b : CB) (vs : list T) :
  valid b -> count b = 0 ->
  let kept := drop (length vs - Z.to_nat capacity) vs in
  let r := pop_all (length kept) (snd (push_all vs b)) in
  fst r = fmap Some (rev kept) /\ fst (isEmpty (snd r)) = true.
Proof.
  intros Hv H0. cbv zeta.
  pose proof (push_all_represents vs b [] (represents_empty b Hv H0)) as Hr.
  simpl in Hr.
  destruct (pop_all_represents _ _ Hr) as [Hxs Hb2].
  split; [assumption|].
  apply represents_length in Hb2. simpl in *. rewrite Hb2. reflexivity.
Qed.

(** ** How the calls compose *)

(** X14. Inserting into a full buffer is discarding the value at the other
    end and then inserting: [push] leaves the state that [shiftNoReturn]
    followed by [push] leaves, and [unshift] the state that [popNoReturn]
    followed by [unshift] leaves. *)
Theorem overwrite_is_discard_then_insert (v : T) (b : CB) :
  valid b -> count b = capacity ->
  snd (push v b) = snd (push v (snd (shiftNoReturn b))) /\
  snd (unshift v b) = snd (unshift v (snd (popNoReturn b))).
Proof.
  intros (Hlen & Hh & Ht & Hc) Hfull.
  unfold push, unshift, shiftNoReturn, popNoReturn.
  rewrite Hfull, Z.eqb_refl.
  destruct (Z.eqb_spec capacity 0); [lia|]. simpl.
  rewrite Z.geb_leb, wrapIT_small by lia.
  destruct (Z.eqb_spec (capacity - 1) capacity); [lia|]. simpl.
  rewrite wrapIT_small by lia.
  split; f_equal; split_tests; lia.
Qed.

(** X15. A value inserted at one end comes back from a removal at that
    end: [unshift] then [shift], and [push] then [pop], return the value, in
    any state with pointers in range. When the buffer was not full the
    removal also leaves it holding what it held before. *)
Theorem insert_remove_same_end (v : T) (b : CB) (l : list T) :
  represents b l ->
  fst (shift (snd (unshift v b))) = Some v /\
  fst (pop (snd (push v b))) = Some v /\
  (count b <> capacity ->
     represents (snd (shift (snd (unshift v b)))) l /\
     represents (snd (pop (snd (push v b)))) l).
Proof.
  intros Hr.
  pose proof (represents_length b l Hr) as Hc.
  pose proof (exec_represents (Unshift v) b l Hr) as Hu.
  pose proof (exec_represents (Push v) b l Hr) as Hp.
  pose proof (exec_represents Shift _ _ Hu) as Hus.
  pose proof (exec_represents Pop _ _ Hp) as Hpp.
  simpl in Hu, Hp, Hus, Hpp.
  destruct Hu as (Hvu & Hlu & Hhu). destruct Hp as (Hvp & Hlp & Hhp).
  split; [|split].
  - destruct (Z.of_nat (length l) =? capacity);
      apply (shift_holds _ v _ Hvu Hhu).
  - destruct (Z.of_nat (length l) =? capacity);
      apply (pop_holds _ v _ Hvp Hlp Hhp).
  - intros Hroom.
    destruct (Z.eqb_spec (Z.of_nat (length l)) capacity); [lia|].
    simpl in Hus. rewrite drop_0 in Hus.
    rewrite length_app, take_app_length' in Hpp by (simpl; lia).
    split; assumption.
Qed.

(** X18. [clear] empties the buffer whatever state it was in, pointers out
    of range included: the state it leaves is the freshly constructed one
    over the same storage, whose slots are not erased. *)
Theorem clear_resets (b : CB) :
  length (buffer b) = Z.to_nat capacity ->
  represents (snd (clear b)) [] /\
  snd (clear b) = CircularBuffer_ctor (buffer b) /\
  fst (isEmpty (snd (clear b))) = true /\
  fst (size (snd (clear b))) = 0 /\
  fst (available (snd (clear b))) = capacity.
Proof.
  intros Hlen. split; [apply (represents_ctor (buffer b) Hlen)|].
  unfold clear, isEmpty, size, available. simpl.
  rewrite Z.sub_0_r, wrapIT_small by lia. auto.
Qed.

(** ** Export: termination and a destination that is too short *)

Section CopyLoopShort.

Context {R : Type}.
Variable convert : T -> R.
Variable mem : list T.
Variable in_range : Z -> bool.
Variable lim finish : Z.

(** A loop over a destination that ends before [finish] stops with an
    access past the destination's end when the source run is longer than
    what is left of the destination, and copies the whole run otherwise. *)
Lemma copy_loop_short :
  (forall c, in_range c = (c <? lim)) ->
  lim <= Z.of_nat (length mem) ->
  forall fuel current d dest,
    (Z.to_nat (lim - current) <= fuel)%nat ->
    0 <= current -> 0 <= d <= Z.of_nat (length dest) ->
    Z.of_nat (length dest) < finish ->
    (Z.of_nat (length dest) - d < lim - current ->
       copy_loop convert mem in_range finish fuel current d dest = Undefined) /\
    (lim - current <= Z.of_nat (length dest) - d ->
       exists dest',
         copy_loop convert mem in_range finish fuel current d dest
         = Done (d + Z.max 0 (lim - current), dest') /\
         length dest' = length dest).
Proof.
  intros Hr Hlim.
  induction fuel as [|n IH]; intros c d dest Hf Hc Hd Hfin;
    simpl; rewrite Hr;
    destruct (Z.ltb_spec c lim); destruct (Z.ltb_spec d finish); simpl;
    try lia;
    try (split; [lia|]; intros _; exists dest;
         split; [do 2 f_equal; lia | reflexivity]).
  destruct (load_in_range mem c) as [x Hx]; [lia|]. rewrite Hx.
  destruct (Z.eq_dec d (Z.of_nat (length dest))) as [Hend | Hin].
  - assert (Hnone : load dest d = None).
    { destruct (load dest d) as [y|] eqn:Hy; [|reflexivity].
      apply load_Some_range in Hy. lia. }
    rewrite Hnone. split; [reflexivity | lia].
  - destruct (load_in_range dest d) as [y Hy]; [lia|]. rewrite Hy.
    destruct (IH (c + 1) (d + 1) (store dest d (convert x)))
      as [Hshort Hfit];
      [lia | lia | rewrite length_store; lia | rewrite length_store; lia |].
    rewrite length_store in Hshort, Hfit. split.
    + intros Hlt. apply Hshort. lia.
    + intros Hle. destruct Hfit as (dest' & Hrun & Hlen'); [lia|].
      exists dest'. split; [rewrite Hrun; do 2 f_equal; lia | assumption].
Qed.

End CopyLoopShort.

(** X16. [copyToArray] does not look at the size of the destination: on a
    buffer that holds more values than the destination has slots, either
    overload writes past the end of the destination. *)
Theorem copyToArray_short_destination {R : Type} (convertFn : T -> R)
    (dest : list T) (destR : list R) (b : CB) :
  reachable b ->
  (Z.of_nat (length dest) < count b ->
     fst (copyToArray dest b) = Undefined) /\
  (Z.of_nat (length destR) < count b ->
     fst (copyToArray_convert destR convertFn b) = Undefined).
Proof.
  intros Hreach.
  pose proof (reachable_valid b Hreach) as (Hlen & Hh & Ht & Hc).
  pose proof (linked_chained b (reachable_linked b Hreach)) as Hl.
  assert (Hconv : forall (R' : Type) (f : T -> R') (dst : list R'),
    Z.of_nat (length dst) < count b ->
    fst (copyToArray_convert dst f b) = Undefined).
  { intros R' f dst Hshort. unfold copyToArray_convert.
    destruct (copy_loop_short f (buffer b)
                (fun current => current <? 0 + capacity) capacity (0 + count b)
                (fun c => eq_refl) ltac:(lia)
                (Z.to_nat (capacity - head b)) (head b) 0 dst)
      as [Hshort1 Hfit1]; [lia | lia | lia | lia |].
    destruct (Z.lt_ge_cases (Z.of_nat (length dst)) (capacity - head b))
      as [Hlt | Hge].
    - rewrite Hshort1 by lia. reflexivity.
    - destruct Hfit1 as (dest1 & Hrun1 & Hlen1); [lia|].
      rewrite Hrun1.
      destruct Hl as [? | Hl]; [lia|]. unwrap.
      destruct (copy_loop_short f (buffer b)
                  (fun current => current <=? tail b) (tail b + 1)
                  (0 + count b)
                  ltac:(intros c; destruct (Z.leb_spec c (tail b));
                        destruct (Z.ltb_spec c (tail b + 1));
                        lia || reflexivity)
                  ltac:(lia)
                  (Z.to_nat (tail b + 1)) 0
                  (0 + Z.max 0 (capacity - head b)) dest1)
        as [Hshort2 _]; [lia | lia | lia | lia |].
      rewrite Hshort2 by (split_tests; lia). reflexivity. }
  split; intros Hshort.
  - rewrite copyToArray_as_convert. apply Hconv. assumption.
  - apply Hconv. assumption.
Qed.

(** X17. The two loops of [copyToArray] end in every state, the first
    within [capacity - head] iterations and the second within [tail + 1]:
    neither overload runs out of the fuel the model gives it. *)
Theorem copyToArray_terminates (b : CB) (dest : list T) :
  fst (copyToArray dest b) <> OutOfFuel /\
  forall (R : Type) (destR : list R) (convertFn : T -> R),
    fst (copyToArray_convert destR convertFn b) <> OutOfFuel.
Proof.
  split.
  - rewrite copyToArray_as_convert. apply copyToArray_fuel.
  - intros R destR convertFn. apply copyToArray_fuel.
Qed.

End Methods.

(** ** The theorems at concrete buffers

    Element type [Z], an 8-bit index type, capacity 3 (4 for the export). *)

Lemma push_spec_witness :
  valid 3 (MkCircularBuffer [10; 20; 30] 1 0 3) /\
  fst (push 3 255 7 (MkCircularBuffer [10; 20; 30] 1 0 3)) = false /\
  head (snd (push 3 255 7 (MkCircularBuffer [10; 20; 30] 1 0 3)))
  = (1 + 1) mod 3.
Proof.
  assert (Hv : valid 3 (MkCircularBuffer [10; 20; 30] 1 0 3))
    by (unfold valid; simpl; lia).
  split; [exact Hv|].
  destruct (push_spec 3 255 ltac:(lia) ltac:(lia) 7 _ Hv)
    as (_ & _ & _ & Hfull & _).
  destruct (Hfull eq_refl) as (Hr & Hh & _).
  split; assumption.
Defined.

Lemma subscript_spec_witness :
  valid 3 (MkCircularBuffer [10; 20; 30] 2 0 2) /\ 0 <= 5 /\
  fst (subscript 3 5 (MkCircularBuffer [10; 20; 30] 2 0 2)) = 0 /\
  fst (subscript_const 3 1 (MkCircularBuffer [10; 20; 30] 2 0 2))
  = (2 + 1) mod 3.
Proof.
  assert (Hv : valid 3 (MkCircularBuffer [10; 20; 30] 2 0 2))
    by (unfold valid; simpl; lia).
  split; [exact Hv|]. split; [lia|]. split.
  - destruct (subscript_spec 3 ltac:(lia) 5 _ Hv ltac:(lia)) as (Hout & _).
    apply Hout. simpl. lia.
  - destruct (subscript_spec 3 ltac:(lia) 1 _ Hv ltac:(lia)) as (_ & Hin & _).
    apply Hin. simpl. lia.
Defined.

Lemma push_beyond_capacity_witness :
  valid 3 (CircularBuffer_ctor [0; 0; 0]) /\
  count (CircularBuffer_ctor [0; 0; 0]) = 0 /\
  Z.of_nat (length [1; 2; 3; 4]) = 3 + 1 /\
  fst (push_all 3 255 [1; 2; 3; 4] (CircularBuffer_ctor [0; 0; 0]))
  = [true; true; true; false].
Proof.
  assert (Hv : valid 3 (CircularBuffer_ctor [0; 0; 0]))
    by (unfold valid; simpl; lia).
  split; [exact Hv|]. split; [reflexivity|]. split; [reflexivity|].
  exact (proj1 (push_beyond_capacity 3 255 ltac:(lia) ltac:(lia)
                  (CircularBuffer_ctor [0; 0; 0]) [1; 2; 3; 4]
                  Hv eq_refl eq_refl)).
Defined.

(** C4 as the specification states it fails: after one [push] and one
    [shift] on a fresh buffer of capacity 3 the buffer is empty, with
    [head] on slot 2 and [tail] on slot 1. *)
Lemma empty_pointers_differ :
  ~ (reachable 3 255 (run 3 255 [Push 1; Shift] (CircularBuffer_ctor [0; 0; 0])) ->
     count (run 3 255 [Push 1; Shift] (CircularBuffer_ctor [0; 0; 0])) = 0 ->
     head (run 3 255 [Push 1; Shift] (CircularBuffer_ctor [0; 0; 0]))
     = tail (run 3 255 [Push 1; Shift] (CircularBuffer_ctor [0; 0; 0]))).
Proof.
  intros H.
  assert (Hr : reachable 3 255
                 (run 3 255 [Push 1; Shift] (CircularBuffer_ctor [0; 0; 0]))).
  { apply reachable_run. apply reach_ctor. reflexivity. }
  specialize (H Hr eq_refl). vm_compute in H. discriminate H.
Qed.

Lemma empty_pointers_witness :
  reachable 3 255 (run 3 255 [Push 1; Shift] (CircularBuffer_ctor [0; 0; 0])) /\
  count (run 3 255 [Push 1; Shift] (CircularBuffer_ctor [0; 0; 0])) = 0 /\
  (head (run 3 255 [Push 1; Shift] (CircularBuffer_ctor [0; 0; 0]))
   = tail (run 3 255 [Push 1; Shift] (CircularBuffer_ctor [0; 0; 0])) \/
   head (run 3 255 [Push 1; Shift] (CircularBuffer_ctor [0; 0; 0]))
   = (tail (run 3 255 [Push 1; Shift] (CircularBuffer_ctor [0; 0; 0])) + 1)
     mod 3).
Proof.
  assert (Hr : reachable 3 255
                 (run 3 255 [Push 1; Shift] (CircularBuffer_ctor [0; 0; 0]))).
  { apply reachable_run. apply reach_ctor. reflexivity. }
  split; [exact Hr|]. split; [reflexivity|].
  exact (empty_pointers 3 255 ltac:(lia) ltac:(lia) _ Hr eq_refl).
Defined.

Lemma copyToArray_spec_witness :
  reachable 4 255
    (run 4 255 [Push 1; Push 2; Push 3; Push 4; Push 5; Push 6]
         (CircularBuffer_ctor [0; 0; 0; 0])) /\
  count (run 4 255 [Push 1; Push 2; Push 3; Push 4; Push 5; Push 6]
             (CircularBuffer_ctor [0; 0; 0; 0]))
  <= Z.of_nat (length [9; 9; 9; 9; 9]) /\
  exists out,
    fst (copyToArray_convert 4 [9; 9; 9; 9; 9] Z.succ
           (run 4 255 [Push 1; Push 2; Push 3; Push 4; Push 5; Push 6]
                (CircularBuffer_ctor [0; 0; 0; 0])))
    = Done out /\
    length out = 5%nat.
Proof.
  assert (Hr : reachable 4 255
                 (run 4 255 [Push 1; Push 2; Push 3; Push 4; Push 5; Push 6]
                      (CircularBuffer_ctor [0; 0; 0; 0]))).
  { apply reachable_run. apply reach_ctor. reflexivity. }
  assert (Hd : count (run 4 255 [Push 1; Push 2; Push 3; Push 4; Push 5; Push 6]
                          (CircularBuffer_ctor [0; 0; 0; 0]))
               <= Z.of_nat (length [9; 9; 9; 9; 9]))
    by (vm_compute; discriminate).
  split; [exact Hr|]. split; [exact Hd|].
  destruct (copyToArray_spec 4 255 ltac:(lia) ltac:(lia) Z.succ
              [9; 9; 9; 9; 9] [9; 9; 9; 9; 9] _ Hr Hd Hd)
    as (_ & out & Hout & Hlen & _).
  exists out. split; assumption.
Defined.

Lemma empty_removal_witness :
  valid 3 (MkCircularBuffer [10; 20; 30] 2 1 0) /\
  count (MkCircularBuffer [10; 20; 30] 2 1 0) = 0 /\
  exists x y,
    load [10; 20; 30] 2 = Some x /\
    shift 3 255 (MkCircularBuffer [10; 20; 30] 2 1 0)
    = (Some x, MkCircularBuffer [10; 20; 30] 2 1 0) /\
    load [10; 20; 30] 1 = Some y /\
    pop 3 255 (MkCircularBuffer [10; 20; 30] 2 1 0)
    = (Some y, MkCircularBuffer [10; 20; 30] 2 1 0).
Proof.
  assert (Hv : valid 3 (MkCircularBuffer [10; 20; 30] 2 1 0))
    by (unfold valid; simpl; lia).
  split; [exact Hv|]. split; [reflexivity|].
  exact (empty_removal 3 255 ltac:(lia) _ Hv eq_refl).
Defined.

Lemma reachable_pointers_in_range_witness :
  reachable 3 255
    (run 3 255 [Unshift 1; Unshift 2; Pop; Push 3] (CircularBuffer_ctor [0; 0; 0])) /\
  0 <= head (run 3 255 [Unshift 1; Unshift 2; Pop; Push 3]
                 (CircularBuffer_ctor [0; 0; 0])) < 3.
Proof.
  assert (Hr : reachable 3 255
                 (run 3 255 [Unshift 1; Unshift 2; Pop; Push 3]
                      (CircularBuffer_ctor [0; 0; 0]))).
  { apply reachable_run. apply reach_ctor. reflexivity. }
  split; [exact Hr|].
  exact (proj1 (reachable_pointers_in_range 3 255 ltac:(lia) ltac:(lia) _ Hr)).
Defined.

Lemma unshift_shift_witness :
  valid 3 (CircularBuffer_ctor [0; 0; 0]) /\
  count (CircularBuffer_ctor [0; 0; 0]) = 0 /\
  fst (shift 3 255 (snd (unshift 3 255 7 (CircularBuffer_ctor [0; 0; 0]))))
  = Some 7.
Proof.
  assert (Hv : valid 3 (CircularBuffer_ctor [0; 0; 0]))
    by (unfold valid; simpl; lia).
  split; [exact Hv|]. split; [reflexivity|].
  exact (proj1 (unshift_shift 3 255 ltac:(lia) ltac:(lia) 7 _ Hv eq_refl)).
Defined.

Lemma queries_spec_witness :
  reachable 3 255 (run 3 255 [Push 1; Push 2] (CircularBuffer_ctor [0; 0; 0])) /\
  fst (available 3 255 (run 3 255 [Push 1; Push 2] (CircularBuffer_ctor [0; 0; 0])))
  + fst (size (run 3 255 [Push 1; Push 2] (CircularBuffer_ctor [0; 0; 0])))
  = 3.
Proof.
  assert (Hr : reachable 3 255
                 (run 3 255 [Push 1; Push 2] (CircularBuffer_ctor [0; 0; 0]))).
  { apply reachable_run. apply reach_ctor. reflexivity. }
  split; [exact Hr|].
  destruct (queries_spec 3 255 ltac:(lia) ltac:(lia) _ Hr) as (_ & _ & Ha & _).
  exact Ha.
Defined.

(** ** Further theorems at concrete buffers *)

(** A buffer of capacity 3 after [push 1] and [push 2]. *)
Lemma example_two_pushed :
  represents 3 (run 3 255 [Push 1; Push 2] (CircularBuffer_ctor [0; 0; 0]))
             [1; 2].
Proof.
  change (represents 3
            (run 3 255 [Push 1; Push 2] (CircularBuffer_ctor [0; 0; 0]))
            (deque_run 3 [Push 1; Push 2] [])).
  apply run_represents; try lia.
  apply represents_ctor; try lia. reflexivity.
Defined.

Lemma unshift_spec_witness :
  valid 3 (MkCircularBuffer [10; 20; 30] 0 2 3) /\
  fst (unshift 3 255 7 (MkCircularBuffer [10; 20; 30] 0 2 3)) = false /\
  tail (snd (unshift 3 255 7 (MkCircularBuffer [10; 20; 30] 0 2 3)))
  = (2 - 1) mod 3.
Proof.
  assert (Hv : valid 3 (MkCircularBuffer [10; 20; 30] 0 2 3))
    by (unfold valid; simpl; lia).
  split; [exact Hv|].
  destruct (unshift_spec 3 255 ltac:(lia) ltac:(lia) 7 _ Hv)
    as (_ & _ & _ & Hfull & _).
  destruct (Hfull eq_refl) as (Hr & Ht & _).
  split; assumption.
Defined.

Lemma removal_spec_witness :
  valid 3 (MkCircularBuffer [10; 20; 30] 2 0 2) /\
  count (MkCircularBuffer [10; 20; 30] 2 0 2) <> 0 /\
  head (snd (shift 3 255 (MkCircularBuffer [10; 20; 30] 2 0 2)))
  = (2 + 1) mod 3.
Proof.
  assert (Hv : valid 3 (MkCircularBuffer [10; 20; 30] 2 0 2))
    by (unfold valid; simpl; lia).
  assert (Hc : count (MkCircularBuffer [10; 20; 30] 2 0 2) <> 0)
    by (simpl; lia).
  split; [exact Hv|]. split; [exact Hc|].
  destruct (removal_spec 3 255 ltac:(lia) ltac:(lia) _ Hv Hc)
    as ((_ & _ & Hh & _) & _).
  exact Hh.
Defined.

Lemma reachable_count_bounds_witness :
  reachable 3 255
    (run 3 255 [Push 1; Push 2; Push 3; Push 4] (CircularBuffer_ctor [0; 0; 0])) /\
  0 <= count (run 3 255 [Push 1; Push 2; Push 3; Push 4]
                  (CircularBuffer_ctor [0; 0; 0])) <= 3.
Proof.
  assert (Hr : reachable 3 255
                 (run 3 255 [Push 1; Push 2; Push 3; Push 4]
                      (CircularBuffer_ctor [0; 0; 0]))).
  { apply reachable_run. apply reach_ctor. reflexivity. }
  split; [exact Hr|].
  exact (proj1 (reachable_count_bounds 3 255 ltac:(lia) ltac:(lia) _ Hr)).
Defined.

Lemma reachable_tail_from_head_witness :
  reachable 3 255
    (run 3 255 [Push 1; Push 2; Push 3; Push 4] (CircularBuffer_ctor [0; 0; 0])) /\
  count (run 3 255 [Push 1; Push 2; Push 3; Push 4]
             (CircularBuffer_ctor [0; 0; 0])) <> 0 /\
  tail (run 3 255 [Push 1; Push 2; Push 3; Push 4]
            (CircularBuffer_ctor [0; 0; 0]))
  = (2 + 3 - 1) mod 3.
Proof.
  assert (Hr : reachable 3 255
                 (run 3 255 [Push 1; Push 2; Push 3; Push 4]
                      (CircularBuffer_ctor [0; 0; 0]))).
  { apply reachable_run. apply reach_ctor. reflexivity. }
  assert (Hc : count (run 3 255 [Push 1; Push 2; Push 3; Push 4]
                          (CircularBuffer_ctor [0; 0; 0])) <> 0)
    by (vm_compute; discriminate).
  split; [exact Hr|]. split; [exact Hc|].
  exact (reachable_tail_from_head 3 255 ltac:(lia) ltac:(lia) _ Hr Hc).
Defined.

Lemma run_refines_deque_witness :
  length [0; 0; 0] = Z.to_nat 3 /\
  represents 3
    (run 3 255 [Push 1; Unshift 2; Push 3; Push 4; Pop; Shift]
         (CircularBuffer_ctor [0; 0; 0]))
    [3].
Proof.
  split; [reflexivity|].
  exact (proj1 (run_refines_deque 3 255 ltac:(lia) ltac:(lia) [0; 0; 0]
                  [Push 1; Unshift 2; Push 3; Push 4; Pop; Shift] eq_refl)).
Defined.

Lemma removal_results_witness :
  represents 3 (run 3 255 [Push 1; Push 2] (CircularBuffer_ctor [0; 0; 0]))
             [1; 2] /\
  [1; 2] <> [] /\
  fst (shift 3 255 (run 3 255 [Push 1; Push 2] (CircularBuffer_ctor [0; 0; 0])))
  = Some 1 /\
  fst (pop 3 255 (run 3 255 [Push 1; Push 2] (CircularBuffer_ctor [0; 0; 0])))
  = Some 2.
Proof.
  assert (Hne : [1; 2] <> @nil Z) by discriminate.
  split; [exact example_two_pushed|]. split; [exact Hne|].
  exact (removal_results 3 255 ltac:(lia) ltac:(lia) _ _
           example_two_pushed Hne).
Defined.

Lemma push_within_capacity_witness :
  valid 3 (CircularBuffer_ctor [0; 0; 0]) /\
  count (CircularBuffer_ctor [0; 0; 0]) = 0 /\
  Z.of_nat (length [1; 2]) <= 3 /\
  fst (push_all 3 255 [1; 2] (CircularBuffer_ctor [0; 0; 0])) = [true; true].
Proof.
  assert (Hv : valid 3 (CircularBuffer_ctor [0; 0; 0]))
    by (unfold valid; simpl; lia).
  assert (Hl : Z.of_nat (length [1; 2]) <= 3) by (simpl; lia).
  split; [exact Hv|]. split; [reflexivity|]. split; [exact Hl|].
  exact (proj1 (push_within_capacity 3 255 ltac:(lia) ltac:(lia)
                  (CircularBuffer_ctor [0; 0; 0]) [1; 2] Hv eq_refl Hl)).
Defined.

Lemma push_all_keeps_newest_witness :
  represents 3 (run 3 255 [Push 1; Push 2] (CircularBuffer_ctor [0; 0; 0]))
             [1; 2] /\
  represents 3
    (snd (push_all 3 255 [3; 4; 5]
            (run 3 255 [Push 1; Push 2] (CircularBuffer_ctor [0; 0; 0]))))
    [3; 4; 5].
Proof.
  split; [exact example_two_pushed|].
  exact (proj1 (push_all_keeps_newest 3 255 ltac:(lia) ltac:(lia)
                  [3; 4; 5] _ _ example_two_pushed)).
Defined.

Lemma subscript_values_witness :
  represents 3 (run 3 255 [Push 1; Push 2] (CircularBuffer_ctor [0; 0; 0]))
             [1; 2] /\
  0 <= 1 /\
  load (buffer (run 3 255 [Push 1; Push 2] (CircularBuffer_ctor [0; 0; 0])))
       (fst (subscript 3 1
               (run 3 255 [Push 1; Push 2] (CircularBuffer_ctor [0; 0; 0]))))
  = Some 2.
Proof.
  split; [exact example_two_pushed|]. split; [lia|].
  destruct (subscript_values 3 ltac:(lia) _ _ 1 example_two_pushed
              ltac:(lia)) as [Hin _].
  exact (proj1 (Hin ltac:(vm_compute; reflexivity))).
Defined.

Lemma copyToArray_contents_witness :
  represents 3 (run 3 255 [Push 1; Push 2] (CircularBuffer_ctor [0; 0; 0]))
             [1; 2] /\
  count (run 3 255 [Push 1; Push 2] (CircularBuffer_ctor [0; 0; 0]))
  <= Z.of_nat (length [9; 9; 9]) /\
  fst (copyToArray_convert 3 [9; 9; 9] Z.succ
         (run 3 255 [Push 1; Push 2] (CircularBuffer_ctor [0; 0; 0])))
  = Done [2; 3; 9].
Proof.
  assert (Hd : count (run 3 255 [Push 1; Push 2] (CircularBuffer_ctor [0; 0; 0]))
               <= Z.of_nat (length [9; 9; 9]))
    by (vm_compute; discriminate).
  split; [exact example_two_pushed|]. split; [exact Hd|].
  exact (proj2 (copyToArray_contents 3 ltac:(lia) Z.succ [9; 9; 9] [9; 9; 9]
                  _ _ example_two_pushed Hd Hd)).
Defined.

Lemma export_after_pushes_witness :
  valid 4 (CircularBuffer_ctor [0; 0; 0; 0]) /\
  count (CircularBuffer_ctor [0; 0; 0; 0]) = 0 /\
  4 <= Z.of_nat (length [9; 9; 9; 9; 9]) /\
  fst (copyToArray 4 [9; 9; 9; 9; 9]
         (snd (push_all 4 255 [1; 2; 3; 4; 5; 6]
                 (CircularBuffer_ctor [0; 0; 0; 0]))))
  = Done [3; 4; 5; 6; 9].
Proof.
  assert (Hv : valid 4 (CircularBuffer_ctor [0; 0; 0; 0]))
    by (unfold valid; simpl; lia).
  assert (Hd : 4 <= Z.of_nat (length [9; 9; 9; 9; 9])) by (simpl; lia).
  split; [exact Hv|]. split; [reflexivity|]. split; [exact Hd|].
  exact (export_after_pushes 4 255 ltac:(lia) ltac:(lia)
           (CircularBuffer_ctor [0; 0; 0; 0]) [1; 2; 3; 4; 5; 6]
           [9; 9; 9; 9; 9] Hv eq_refl Hd).
Defined.

Lemma fifo_round_trip_witness :
  valid 3 (CircularBuffer_ctor [0; 0; 0]) /\
  count (CircularBuffer_ctor [0; 0; 0]) = 0 /\
  fst (shift_all 3 255 3
         (snd (push_all 3 255 [1; 2; 3; 4] (CircularBuffer_ctor [0; 0; 0]))))
  = [Some 2; Some 3; Some 4].
Proof.
  assert (Hv : valid 3 (CircularBuffer_ctor [0; 0; 0]))
    by (unfold valid; simpl; lia).
  split; [exact Hv|]. split; [reflexivity|].
  exact (proj1 (fifo_round_trip 3 255 ltac:(lia) ltac:(lia)
                  (CircularBuffer_ctor [0; 0; 0]) [1; 2; 3; 4] Hv eq_refl)).
Defined.

Lemma lifo_round_trip_witness :
  valid 3 (CircularBuffer_ctor [0; 0; 0]) /\
  count (CircularBuffer_ctor [0; 0; 0]) = 0 /\
  fst (pop_all 3 255 3
         (snd (push_all 3 255 [1; 2; 3; 4] (CircularBuffer_ctor [0; 0; 0]))))
  = [Some 4; Some 3; Some 2].
Proof.
  assert (Hv : valid 3 (CircularBuffer_ctor [0; 0; 0]))
    by (unfold valid; simpl; lia).
  split; [exact Hv|]. split; [reflexivity|].
  exact (proj1 (lifo_round_trip 3 255 ltac:(lia) ltac:(lia)
                  (CircularBuffer_ctor [0; 0; 0]) [1; 2; 3; 4] Hv eq_refl)).
Defined.

Lemma overwrite_is_discard_then_insert_witness :
  valid 3 (MkCircularBuffer [10; 20; 30] 1 0 3) /\
  count (MkCircularBuffer [10; 20; 30] 1 0 3) = 3 /\
  snd (push 3 255 7 (MkCircularBuffer [10; 20; 30] 1 0 3))
  = snd (push 3 255 7
           (snd (shiftNoReturn 3 255 (MkCircularBuffer [10; 20; 30] 1 0 3)))).
Proof.
  assert (Hv : valid 3 (MkCircularBuffer [10; 20; 30] 1 0 3))
    by (unfold valid; simpl; lia).
  split; [exact Hv|]. split; [reflexivity|].
  exact (proj1 (overwrite_is_discard_then_insert 3 255 ltac:(lia) ltac:(lia)
                  7 _ Hv eq_refl)).
Defined.

Lemma insert_remove_same_end_witness :
  represents 3 (run 3 255 [Push 1; Push 2] (CircularBuffer_ctor [0; 0; 0]))
             [1; 2] /\
  fst (shift 3 255
         (snd (unshift 3 255 7
                 (run 3 255 [Push 1; Push 2] (CircularBuffer_ctor [0; 0; 0])))))
  = Some 7.
Proof.
  split; [exact example_two_pushed|].
  exact (proj1 (insert_remove_same_end 3 255 ltac:(lia) ltac:(lia) 7 _ _
                  example_two_pushed)).
Defined.

Lemma copyToArray_short_destination_witness :
  reachable 3 255 (run 3 255 [Push 1; Push 2] (CircularBuffer_ctor [0; 0; 0])) /\
  Z.of_nat (length [9]) <
  count (run 3 255 [Push 1; Push 2] (CircularBuffer_ctor [0; 0; 0])) /\
  fst (copyToArray 3 [9]
         (run 3 255 [Push 1; Push 2] (CircularBuffer_ctor [0; 0; 0])))
  = Undefined.
Proof.
  assert (Hr : reachable 3 255
                 (run 3 255 [Push 1; Push 2] (CircularBuffer_ctor [0; 0; 0]))).
  { apply reachable_run. apply reach_ctor. reflexivity. }
  assert (Hs : Z.of_nat (length [9]) <
               count (run 3 255 [Push 1; Push 2] (CircularBuffer_ctor [0; 0; 0])))
    by (vm_compute; reflexivity).
  split; [exact Hr|]. split; [exact Hs|].
  exact (proj1 (copyToArray_short_destination 3 255 ltac:(lia) ltac:(lia)
                  Z.succ [9] [9] _ Hr) Hs).
Defined.

Lemma clear_resets_witness :
  length (buffer (MkCircularBuffer [10; 20; 30] 7 (-4) 9)) = Z.to_nat 3 /\
  fst (isEmpty (snd (clear (MkCircularBuffer [10; 20; 30] 7 (-4) 9)))) = true.
Proof.
  split; [reflexivity|].
  destruct (clear_resets 3 255 ltac:(lia) ltac:(lia)
              (MkCircularBuffer [10; 20; 30] 7 (-4) 9) eq_refl)
    as (_ & _ & He & _).
  exact He.
Defined.

(** ** [copyToArray] in one address space, at concrete memories *)

(** C10 as the specification states it fails for a destination with fewer
    cells than the buffer holds values: with a one-cell destination at
    address 0 and a buffer of capacity 3 at address 1 that holds two
    values, the second pass of the first loop stores past the end of the
    destination, so the call has no defined state after it. *)
Lemma copyToArray_at_short_destination :
  ~ exists p',
      copyToArray_at 3 Some (fun x : Z => x) 0 1
                     (MkPlaced [9; 10; 20; 30] 1 1 2 2) = Done p' /\
      same_buffer 3 (MkPlaced [9; 10; 20; 30] 1 1 2 2) p'.
Proof.
  intros (p' & Hrun & _). vm_compute in Hrun. discriminate Hrun.
Qed.

(** The destination must also stay clear of the storage: a destination
    that starts at the second storage slot receives the first slot's value
    twice, and two storage slots change. *)
Example copyToArray_at_overlap :
  copyToArray_at 3 Some (fun x : Z => x) 1 2 (MkPlaced [10; 20; 30] 0 0 1 2)
  = Done (MkPlaced [10; 10; 10] 0 0 1 2).
Proof. reflexivity. Qed.

Lemma copyToArray_at_frame_witness :
  placed_ok 4 Some (MkPlaced [0; 4; 5; 6; 3; 9; 9; 9; 9; 9] 1 4 3 4) /\
  0 <= 5 /\
  5 + 5 <= Z.of_nat (length [0; 4; 5; 6; 3; 9; 9; 9; 9; 9]) /\
  4 <= 5 /\
  (5 + 5 <= 1 \/ 1 + 4 <= 5) /\
  exists p',
    copyToArray_at 4 Some (fun x : Z => x) 5 5
                   (MkPlaced [0; 4; 5; 6; 3; 9; 9; 9; 9; 9] 1 4 3 4)
    = Done p' /\
    same_buffer 4 (MkPlaced [0; 4; 5; 6; 3; 9; 9; 9; 9; 9] 1 4 3 4) p'.
Proof.
  assert (Hok : placed_ok 4 Some
                  (MkPlaced [0; 4; 5; 6; 3; 9; 9; 9; 9; 9] 1 4 3 4)).
  { unfold placed_ok. simpl. repeat (split; [lia|]).
    intros a Ha.
    destruct (load_in_range [0; 4; 5; 6; 3; 9; 9; 9; 9; 9] a) as [c Hc];
      [simpl; lia|].
    exists c, c. split; [exact Hc | reflexivity]. }
  assert (Hmem : 5 + 5 <= Z.of_nat (length [0; 4; 5; 6; 3; 9; 9; 9; 9; 9]))
    by (simpl; lia).
  assert (Hdisj : 5 + 5 <= 1 \/ 1 + 4 <= 5) by lia.
  split; [exact Hok|]. split; [lia|]. split; [exact Hmem|].
  split; [lia|]. split; [exact Hdisj|].
  destruct (copyToArray_at_frame 4 ltac:(lia) Some (fun x : Z => x)
              (fun y : Z => y) Z.succ 5 5
              (MkPlaced [0; 4; 5; 6; 3; 9; 9; 9; 9; 9] 1 4 3 4)
              Hok ltac:(lia) Hmem ltac:(simpl; lia) Hdisj)
    as ((p' & Hrun & Hsame & _) & _).
  exists p'. split; assumption.
Defined.
